(** * WorldSim: climate model, river simulation and world generation

    A shallow embedding of [ClimateSystem] and [WorldGenerator]
    (src/core/ClimateSystem.ts, src/core/WorldGenerator.ts), of the
    geometry of [Planet] (src/components/Planet.tsx) and of the calls
    [App] makes (src/App.tsx).

    JavaScript numbers are read as real numbers: [Math.cos], [Math.sqrt],
    [Math.abs], [Math.min], [Math.max] and [Math.floor] are the functions of
    the same name on [R].  Rounding, [NaN] and the infinities of IEEE
    doubles are outside the model.

    The libraries the generator calls are interfaces: [h3-js] (the grid),
    [simplex-noise] (the noise factory) and [Math.random] (a sequence of
    draws, each in [0,1), read through an explicit position). *)

From Stdlib Require Import Reals Lra Lia ZArith List String Ascii Bool Sorted.
From stdpp Require Import base option list gmap sets strings.
Import ListNotations.

#[local] Open Scope R_scope.

(* ===================================================================== *)
(** * JavaScript primitives *)
(* ===================================================================== *)

Module JS.

(** [Math.floor] *)
Definition floor (x : R) : Z := Int_part x.

(** [ToInt32] and [ToUint32] of an integral number. *)
Definition toInt32 (z : Z) : Z := ((z + 2 ^ 31) mod 2 ^ 32 - 2 ^ 31)%Z.
Definition toUint32 (z : Z) : Z := (z mod 2 ^ 32)%Z.

(** [a ^ b] on numbers: both operands go through [ToInt32]. *)
Definition xor (a b : Z) : Z := Z.lxor (toInt32 a) (toInt32 b).

(** [Math.imul] *)
Definition imul (a b : Z) : Z := toInt32 (toInt32 a * toInt32 b).

(** [s.charCodeAt(i)] for the characters of [s] in order. *)
Definition charCode (c : ascii) : Z := Z.of_N (N_of_ascii c).

(** Truthiness of a [string | null] value: [null] and the empty string
    are falsy. *)
Definition truthy (v : option string) : bool :=
  match v with
  | Some s => negb (String.eqb s EmptyString)
  | None => false
  end.

(** [x < m] where [m] starts as [Infinity] ([None]). *)
Definition ltInf (x : R) (m : option R) : bool :=
  match m with
  | None => true
  | Some y => if Rlt_dec x y then true else false
  end.

(** [Math.random()]: a number in [0,1). *)
Record Draw : Type := mkDraw {
  draw : R;
  draw_nonneg : 0 <= draw;
  draw_below_one : draw < 1
}.

(** [Math.floor(Math.random() * n)] *)
Definition randomIndex (u : Draw) (n : nat) : nat :=
  Z.to_nat (floor (draw u * INR n)).

End JS.

(* ===================================================================== *)
(** * ClimateSystem *)
(* ===================================================================== *)

(** The biome tags.  [RIVER] is only ever written by the generator. *)
Inductive Biome : Type :=
  | OCEAN | ICE | TUNDRA | TROPICAL_RAINFOREST | SAVANNA | DESERT
  | TEMPERATE_FOREST | GRASSLAND | TAIGA | RIVER.

Module ClimateSystem.

Definition calculateInsolation
    (lat lon _tilt sunlight rotationPeriod orbitalPeriod : R) : R :=
  (* Tidal Locking Check *)
  if Rlt_dec (Rabs (rotationPeriod - orbitalPeriod)) 0.1 then
    (* Sub-stellar point model (0,0) *)
    let latRad := lat * PI / 180 in
    let lonRad := lon * PI / 180 in
    let dot := cos latRad * cos lonRad in
    let dot := if Rlt_dec dot 0 then 0 else dot in
    dot * sunlight
  else
    (* Standard Latitudinal Model *)
    let latRad := lat * PI / 180 in
    cos latRad * sunlight.

Definition calculateTemperature (insolation height seaLevel : R) : R :=
  let temp := -20 + insolation * 50 in
  if Rgt_dec height seaLevel then
    let altitude := height - seaLevel in
    temp - altitude * 80
  else temp.

(** Faithful for [rotationSpeed >= 0]: [Math.sqrt] of a negative number
    is [NaN], which the real numbers do not have. *)
Definition calculateMoisture (lat height seaLevel rotationSpeed : R) : R :=
  let cellWidth := 30 / sqrt rotationSpeed in
  let latAbs := Rabs lat in
  let phase := latAbs / cellWidth * PI in
  let baseMoisture := (cos phase + 1) / 2 in
  let baseMoisture := baseMoisture * 0.8 + 0.1 in
  let baseMoisture :=
    if Rgt_dec height seaLevel then
      let altitude := height - seaLevel in
      baseMoisture + altitude * 0.5
    else baseMoisture in
  Rmin 1 (Rmax 0 baseMoisture).

Definition determineBiome (temp moisture height seaLevel : R) : Biome :=
  if Rle_dec height seaLevel then OCEAN
  else if Rlt_dec temp (-5) then ICE
  else if Rlt_dec temp 5 then TUNDRA
  else if Rgt_dec temp 20 then
    if Rgt_dec moisture 0.8 then TROPICAL_RAINFOREST
    else if Rgt_dec moisture 0.4 then SAVANNA
    else DESERT
  else if Rgt_dec temp 10 then
    if Rgt_dec moisture 0.6 then TEMPERATE_FOREST
    else if Rgt_dec moisture 0.3 then GRASSLAND
    else DESERT
  else if Rgt_dec moisture 0.5 then TAIGA
  else TUNDRA.

End ClimateSystem.

(* ===================================================================== *)
(** * The libraries behind the generator *)
(* ===================================================================== *)

(** [h3-js]: cell ids are strings. [gridDisk1 c] is [gridDisk(c, 1)]. *)
Class H3 : Type := {
  getRes0Cells : list string;
  cellToChildren : string -> nat -> list string;
  cellToLatLng : string -> R * R;
  gridDisk1 : string -> list string
}.

(** [simplex-noise]: [createNoise3D(random)] builds its tables from the
    numbers [random()] returns.  The generator passes a closure that
    returns the same number on every call, so the factory is read as a
    function of that number. *)
Class SimplexNoise : Type := {
  createNoise3D : R -> (R -> R -> R -> R)
}.

(** [Math.random]: the sequence of draws of the running process; a call
    reads the draw at the current position and advances it. *)
Class MathRandom : Type := {
  random : nat -> JS.Draw
}.

(** A decoded image, and the 2d context it was drawn on:
    [getImageData(x, y, 1, 1).data[0]] is the red channel of one pixel. *)
Record Image : Type := {
  width : Z;
  height : Z;
  red : Z -> Z -> Byte.byte
}.

Record CanvasRenderingContext2D : Type := {
  getImageData : Z -> Z -> Byte.byte
}.

Inductive GenerationMethod : Type := noise | tectonic.

Module CellInfo.
Record t : Type := mk {
  h3Index : string;
  lat : R;
  lon : R;
  height : R
}.
End CellInfo.

Module CellData.
Record t : Type := mk {
  h3Index : string;
  lat : R;
  lon : R;
  height : R;
  temperature : R;
  moisture : R;
  biome : Biome;
  isRiver : bool
}.
End CellData.

(* ===================================================================== *)
(** * WorldGenerator *)
(* ===================================================================== *)

Module WorldGenerator.

(** The fields of a generator object. *)
Record t : Type := mk {
  noise3D : R -> R -> R -> R;
  heightMapContext : option CanvasRenderingContext2D;
  heightMapWidth : Z;
  heightMapHeight : Z
}.

(** The closure handed to [createNoise3D]: a 32-bit hash of the seed,
    scaled to [0,1). *)
Fixpoint seedHash (h : Z) (seed : string) : Z :=
  match seed with
  | EmptyString => h
  | String c rest => seedHash (JS.imul (JS.xor h (JS.charCode c)) 0x01000193) rest
  end.

Definition seedFraction (seed : string) : R :=
  IZR (JS.toUint32 (seedHash 0x811c9dc5 seed)) / 4294967296.

Section Generator.
Context `{H3} `{SimplexNoise} `{MathRandom}.

Definition new (seed : string) : t :=
  {| noise3D := createNoise3D (seedFraction seed);
     heightMapContext := None;
     heightMapWidth := 0;
     heightMapHeight := 0 |}.

Definition setSeed (this : t) (seed : string) : t :=
  {| noise3D := createNoise3D (seedFraction seed);
     heightMapContext := heightMapContext this;
     heightMapWidth := heightMapWidth this;
     heightMapHeight := heightMapHeight this |}.

(** [loadHeightMap] once its promise has resolved. *)
Definition loadHeightMap (this : t) (img : Image) : t :=
  {| noise3D := noise3D this;
     heightMapContext := Some {| getImageData := red img |};
     heightMapWidth := width img;
     heightMapHeight := height img |}.

(** 3D noise generation on a sphere *)
Definition getNoise (this : t) (lat lon : R) : R :=
  let r := 1 in
  let cosLat := cos (lat * PI / 180) in
  let sinLat := sin (lat * PI / 180) in
  let cosLon := cos (lon * PI / 180) in
  let sinLon := sin (lon * PI / 180) in
  let x := r * cosLat * cosLon in
  let y := r * cosLat * sinLon in
  let z := r * sinLat in
  let v := 0 in
  let v := v + noise3D this x y z * 1.0 in
  let v := v + noise3D this (x * 2) (y * 2) (z * 2) * 0.5 in
  let v := v + noise3D this (x * 4) (y * 4) (z * 4) * 0.25 in
  v / 1.75.

(** ** generateTectonicPlates *)

(** The loop that fills [centers]: one draw per plate. *)
Fixpoint pickCenters (numPlates : nat) (cells : list string) (c0 : string)
    (pos : nat) : list string :=
  match numPlates with
  | O => []
  | S k =>
      nth (JS.randomIndex (random pos) (length cells)) cells c0
        :: pickCenters k cells c0 (S pos)
  end.

(** The inner [centerCoords.forEach]: index of the first centre at
    minimal squared planar distance. *)
Definition nearestCenter (lat lon : R) (centerCoords : list (R * R)) : nat :=
  snd (fold_left
         (fun (acc : option R * nat) (e : nat * (R * R)) =>
            let '(minDist, plateId) := acc in
            let '(pid, center) := e in
            let dLat := lat - fst center in
            let dLon := lon - snd center in
            let dist := dLat * dLat + dLon * dLon in
            if JS.ltInf dist minDist then (Some dist, pid)
            else (minDist, plateId))
         (combine (seq 0 (length centerCoords)) centerCoords)
         (None, 0%nat)).

(** Returns the height map and the position after its draws.  With no
    cells every centre is [undefined]; nothing throws ([h3-js] answers
    [cellToLatLng(undefined)] with a coordinate), no cell is there to be
    compared with a centre, and the map stays empty after the same
    1 + 2 * numPlates draws.  With at least one cell the index
    [Math.floor(Math.random() * cells.length)] is in range (lemma
    [randomIndex_lt]), so the default [c0] is never read. *)
Definition generateTectonicPlates (cells : list string) (pos : nat)
    : option (gmap string R * nat) :=
  let numPlates := (8 + JS.randomIndex (random pos) 5)%nat in
  let pos := S pos in
  match cells with
  | [] => Some (∅, (pos + numPlates + numPlates)%nat)
  | c0 :: _ =>
      let centers := pickCenters numPlates cells c0 pos in
      let pos := (pos + numPlates)%nat in
      (* 1. Assign plates (Voronoi) *)
      let centerCoords := map cellToLatLng centers in
      let cellCoords :=
        map (fun c => let '(lat, lon) := cellToLatLng c in (c, lat, lon)) cells in
      let plateMap : gmap string nat :=
        fold_left
          (fun (m : gmap string nat) (c : string * R * R) =>
             let '(id, lat, lon) := c in
             <[id := nearestCenter lat lon centerCoords]> m)
          cellCoords ∅ in
      (* 2. Plate Interactions *)
      let plateHeights :=
        map (fun i => JS.draw (random (pos + i)%nat) * 0.8 + 0.1) (seq 0 (length centers)) in
      let pos := (pos + length centers)%nat in
      let heightMap : gmap string R :=
        fold_left
          (fun (m : gmap string R) (c : string * R * R) =>
             let '(id, _, _) := c in
             (* a missing entry would be stored as [undefined], which
                [generateWorld] reads back as 0 *)
             let baseH :=
               match plateMap !! id with
               | Some pid => nth pid plateHeights 0
               | None => 0
               end in
             <[id := baseH]> m)
          cellCoords ∅ in
      Some (heightMap, pos)
  end.

(** ** simulateRivers *)

Definition numRivers : nat := 50.
Definition maxPathLength : nat := 100.

Section Rivers.
Variable seaLevel : R.
Variable heightMap : gmap string R.

(** The body of [for (const n of neighbors)], on the pair
    [(bestNeighbor, lowestHeight)]. *)
Definition scanStep (current : CellInfo.t) (acc : option string * R)
    (n : string) : option string * R :=
  let '(bestNeighbor, lowestHeight) := acc in
  if String.eqb n (CellInfo.h3Index current) then acc
  else match heightMap !! n with
       | Some h => if Rlt_dec h lowestHeight then (Some n, h) else acc
       | None => acc
       end.

(** Find lower neighbor: the neighbour of least height strictly below
    the current one, first seen on ties. *)
Definition lowestNeighbor (current : CellInfo.t) : option string * R :=
  fold_left (scanStep current)
    (gridDisk1 (CellInfo.h3Index current))
    (None, CellInfo.height current).

(** State of the [while] loop of one river. *)
Record WalkState : Type := mkWalk {
  current : CellInfo.t;
  pathLength : nat;
  rivers : gset string
}.

Definition whileCond (st : WalkState) : bool :=
  (if Rgt_dec (CellInfo.height (current st)) seaLevel then true else false)
  && (pathLength st <? maxPathLength)%nat.

(** One run of the loop body; [false] is [break]. *)
Definition whileBody (st : WalkState) : WalkState * bool :=
  let rivers := {[CellInfo.h3Index (current st)]} ∪ rivers st in
  let '(bestNeighbor, lowestHeight) := lowestNeighbor (current st) in
  match bestNeighbor with
  | Some n =>
      if JS.truthy bestNeighbor then
        ({| current := CellInfo.mk n 0 0 lowestHeight;
            pathLength := S (pathLength st);
            rivers := rivers |}, true)
      else
        ({| current := current st; pathLength := pathLength st;
            rivers := rivers |}, false)
  | None =>
      ({| current := current st; pathLength := pathLength st;
          rivers := rivers |}, false)
  end.

(** The [while] loop, run for at most [fuel] bodies. *)
Fixpoint whileLoop (fuel : nat) (st : WalkState) : option WalkState :=
  if whileCond st then
    match fuel with
    | O => None
    | S fuel' =>
        let '(st', continue) := whileBody st in
        if continue then whileLoop fuel' st' else Some st'
    end
  else Some st.

(** The same loop by recursion on [maxPathLength - pathLength], the
    number of moves the loop condition still allows. *)
Fixpoint descend (remaining : nat) (cur : CellInfo.t) (rs : gset string)
    : gset string :=
  match remaining with
  | O => rs
  | S remaining' =>
      if Rgt_dec (CellInfo.height cur) seaLevel then
        let rs := {[CellInfo.h3Index cur]} ∪ rs in
        let '(bestNeighbor, lowestHeight) := lowestNeighbor cur in
        match bestNeighbor with
        | Some n =>
            if JS.truthy bestNeighbor
            then descend remaining' (CellInfo.mk n 0 0 lowestHeight) rs
            else rs
        | None => rs
        end
      else rs
  end.

(** The cells one walk marks, in order. *)
Fixpoint walkPath (remaining : nat) (cur : CellInfo.t) : list CellInfo.t :=
  match remaining with
  | O => []
  | S remaining' =>
      if Rgt_dec (CellInfo.height cur) seaLevel then
        cur ::
        (let '(bestNeighbor, lowestHeight) := lowestNeighbor cur in
         match bestNeighbor with
         | Some n =>
             if JS.truthy bestNeighbor
             then walkPath remaining' (CellInfo.mk n 0 0 lowestHeight)
             else []
         | None => []
         end)
      else []
  end.

Variable candidates : list CellInfo.t.

(** The start cell of the trial that reads the draw at [pos]. *)
Definition startCell (c0 : CellInfo.t) (pos : nat) : CellInfo.t :=
  nth (JS.randomIndex (random pos) (length candidates)) candidates c0.

(** The [for] loop over the rivers still to start. *)
Fixpoint riverLoop (todo : nat) (pos : nat) (rs : gset string)
    : gset string * nat :=
  match todo with
  | O => (rs, pos)
  | S todo' =>
      match candidates with
      | [] => (rs, pos)
      | c0 :: _ =>
          let cur := startCell c0 pos in
          riverLoop todo' (S pos) (descend maxPathLength cur rs)
      end
  end.
End Rivers.

Definition buildHeightMap (cells : list CellInfo.t) : gmap string R :=
  fold_left
    (fun (m : gmap string R) c => <[CellInfo.h3Index c := CellInfo.height c]> m)
    cells ∅.

(** Start random rivers at high altitude *)
Definition riverCandidates (cells : list CellInfo.t) (seaLevel : R)
    : list CellInfo.t :=
  List.filter
    (fun c => if Rgt_dec (CellInfo.height c) (seaLevel + 0.3) then true else false)
    cells.

Definition simulateRiversFrom (cells : list CellInfo.t) (seaLevel : R)
    (pos : nat) : gset string * nat :=
  riverLoop seaLevel (buildHeightMap cells) (riverCandidates cells seaLevel)
    numRivers pos ∅.

Definition simulateRivers (cells : list CellInfo.t) (seaLevel : R)
    (pos : nat) : gset string :=
  fst (simulateRiversFrom cells seaLevel pos).

(** ** generateWorld *)

(** Expand to target resolution *)
Definition expandCells (resolution : nat) : list string :=
  match resolution with
  | O => getRes0Cells
  | _ => flat_map (fun c => cellToChildren c resolution) getRes0Cells
  end.

(** First pass: Calculate heights *)
Definition heightAt (this : t) (generationMethod : GenerationMethod)
    (tectonicHeights : option (gmap string R))
    (h3Index : string) (lat lon : R) : R :=
  match heightMapContext this with
  | Some ctx =>
      let x := (lon + 180) / 360 * IZR (heightMapWidth this) in
      let y := (90 - lat) / 180 * IZR (heightMapHeight this) in
      let safeX := Z.max 0 (Z.min (heightMapWidth this - 1) (JS.floor x)) in
      let safeY := Z.max 0 (Z.min (heightMapHeight this - 1) (JS.floor y)) in
      let pixel := getImageData ctx safeX safeY in
      IZR (Z.of_N (Byte.to_N pixel)) / 255
  | None =>
      match generationMethod, tectonicHeights with
      | tectonic, Some heights =>
          let heightVal := default 0 (heights !! h3Index) in
          (* Add some noise for detail *)
          let detail := getNoise this lat lon * 0.1 in
          Rmin 1 (Rmax 0 (heightVal + detail))
      | _, _ =>
          (* Default Noise *)
          let noiseVal := getNoise this lat lon in
          (noiseVal + 1) / 2
      end
  end.

Definition cellInfo (this : t) (generationMethod : GenerationMethod)
    (tectonicHeights : option (gmap string R)) (h3Index : string)
    : CellInfo.t :=
  let '(lat, lon) := cellToLatLng h3Index in
  CellInfo.mk h3Index lat lon
    (heightAt this generationMethod tectonicHeights h3Index lat lon).

(** Final Pass: Climate & Biomes *)
Definition cellData (rivers : gset string)
    (seaLevel sunlight axialTilt rotationSpeed rotationPeriod orbitalPeriod : R)
    (info : CellInfo.t) : CellData.t :=
  let h3Index := CellInfo.h3Index info in
  let lat := CellInfo.lat info in
  let lon := CellInfo.lon info in
  let height := CellInfo.height info in
  let isRiver := bool_decide (h3Index ∈ rivers) in
  (* Climate *)
  let insolation :=
    ClimateSystem.calculateInsolation lat lon axialTilt sunlight
      rotationPeriod orbitalPeriod in
  let temp := ClimateSystem.calculateTemperature insolation height seaLevel in
  let moisture :=
    ClimateSystem.calculateMoisture lat height seaLevel rotationSpeed in
  (* Rivers make things wetter *)
  let moisture := if isRiver then moisture + 0.3 else moisture in
  let biome := ClimateSystem.determineBiome temp moisture height seaLevel in
  let biome :=
    if isRiver && (if Rgt_dec height seaLevel then true else false)
    then RIVER else biome in
  CellData.mk h3Index lat lon height temp moisture biome isRiver.

(** Tectonic Generation State: [None] inside is [null]. *)
Definition tectonicState (generationMethod : GenerationMethod)
    (allCells : list string) (pos : nat)
    : option (option (gmap string R) * nat) :=
  match generationMethod with
  | tectonic =>
      match generateTectonicPlates allCells pos with
      | Some (heights, pos) => Some (Some heights, pos)
      | None => None
      end
  | noise => Some (None, pos)
  end.

(** [generateWorld] called when [Math.random] stands at [pos]; returns
    the cells and the position it leaves ([None] would be an exception). *)
Definition generateWorldFrom (this : t) (resolution : nat)
    (seaLevel sunlight axialTilt rotationSpeed rotationPeriod orbitalPeriod : R)
    (generationMethod : GenerationMethod) (pos : nat)
    : option (list CellData.t * nat) :=
  let allCells := expandCells resolution in
  match tectonicState generationMethod allCells pos with
  | None => None
  | Some (tectonicHeights, pos) =>
      let cellInfos :=
        map (cellInfo this generationMethod tectonicHeights) allCells in
      (* River Simulation *)
      let '(rivers, pos) := simulateRiversFrom cellInfos seaLevel pos in
      let worldData :=
        map (cellData rivers seaLevel sunlight axialTilt rotationSpeed
               rotationPeriod orbitalPeriod) cellInfos in
      Some (worldData, pos)
  end.

Definition generateWorld (this : t) (resolution : nat)
    (seaLevel sunlight axialTilt rotationSpeed rotationPeriod orbitalPeriod : R)
    (generationMethod : GenerationMethod) (pos : nat)
    : option (list CellData.t) :=
  fst <$> generateWorldFrom this resolution seaLevel sunlight axialTilt
            rotationSpeed rotationPeriod orbitalPeriod generationMethod pos.
End Generator.
End WorldGenerator.

(* ===================================================================== *)
(** * The biome decision table, as the specification words it *)
(* ===================================================================== *)

Module BiomeTable.

(** Rows are read in order; the first row whose guard holds decides. *)
Fixpoint firstMatch (rows : list (bool * Biome)) (otherwise : Biome) : Biome :=
  match rows with
  | [] => otherwise
  | (guard, b) :: rest => if guard then b else firstMatch rest otherwise
  end.

Definition below (x bound : R) : bool := if Rlt_dec x bound then true else false.
Definition above (x bound : R) : bool := if Rgt_dec x bound then true else false.
Definition atMost (x bound : R) : bool := if Rle_dec x bound then true else false.

(** A band of the table that splits on moisture alone. *)
Definition byMoisture (moisture : R) (rows : list (R * Biome))
    (otherwise : Biome) : Biome :=
  firstMatch (map (fun r => (above moisture (fst r), snd r)) rows) otherwise.

Definition classify (temperature moisture elevation seaLevel : R) : Biome :=
  firstMatch
    [ (atMost elevation seaLevel, OCEAN);
      (below temperature (-5), ICE);
      (below temperature 5, TUNDRA);
      (above temperature 20,
         byMoisture moisture [(0.8, TROPICAL_RAINFOREST); (0.4, SAVANNA)] DESERT);
      (above temperature 10,
         byMoisture moisture [(0.6, TEMPERATE_FOREST); (0.3, GRASSLAND)] DESERT) ]
    (byMoisture moisture [(0.5, TAIGA)] TUNDRA).

End BiomeTable.

(* ===================================================================== *)
(** * Invariants used for the river walk *)
(* ===================================================================== *)

Module RiverSpec.

(** What the neighbour scan of [cur] knows once it has looked at the
    neighbours in [seen]: the accumulator holds the current height and no
    neighbour, or a neighbour strictly below the current cell; and no
    neighbour seen so far is known to lie below the accumulated height. *)
Definition scanned (heightMap : gmap string R) (cur : CellInfo.t)
    (seen : list string) (acc : option string * R) : Prop :=
  match fst acc with
  | None => snd acc = CellInfo.height cur
  | Some n =>
      In n seen /\ n <> CellInfo.h3Index cur
      /\ heightMap !! n = Some (snd acc)
      /\ snd acc < CellInfo.height cur
  end
  /\ forall n' h, In n' seen -> n' <> CellInfo.h3Index cur ->
       heightMap !! n' = Some h -> snd acc <= h.

(** Consecutive cells of a walk: a step goes to a different cell of the
    1-ring whose recorded height is strictly lower. *)
Fixpoint descending `{H3} (heightMap : gmap string R) (path : list CellInfo.t)
    : Prop :=
  match path with
  | c1 :: ((c2 :: _) as rest) =>
      In (CellInfo.h3Index c2) (gridDisk1 (CellInfo.h3Index c1))
      /\ CellInfo.h3Index c2 <> CellInfo.h3Index c1
      /\ heightMap !! CellInfo.h3Index c2 = Some (CellInfo.height c2)
      /\ CellInfo.height c2 < CellInfo.height c1
      /\ descending heightMap rest
  | _ => True
  end.

(** No cell of the 1-ring other than [c] has a recorded height strictly
    below that of [c]. *)
Definition localMinimum `{H3} (heightMap : gmap string R) (c : CellInfo.t)
    : Prop :=
  forall n h, In n (gridDisk1 (CellInfo.h3Index c)) ->
    n <> CellInfo.h3Index c -> heightMap !! n = Some h ->
    CellInfo.height c <= h.

End RiverSpec.

(* ===================================================================== *)
(** * A small world to run the generator on *)
(* ===================================================================== *)

Module TwoCells.

(** Two base cells on the equator, each in the 1-ring of the other. *)
Definition grid : H3 :=
  {| getRes0Cells := ["a"; "b"]%string;
     cellToChildren := fun c _ => [String.append c "0"; String.append c "1"]%string;
     cellToLatLng := fun c => if String.eqb c "a" then (0, 0) else (0, 90);
     gridDisk1 := fun c =>
       if String.eqb c "a" then ["a"; "b"]%string else ["b"; "a"]%string |}.

(** A noise field that is flat. *)
Definition flat : SimplexNoise :=
  {| createNoise3D := fun _ _ _ _ => 0 |}.

Definition zero : JS.Draw := JS.mkDraw 0 ltac:(lra) ltac:(lra).
Definition half : JS.Draw := JS.mkDraw 0.5 ltac:(lra) ltac:(lra).

(** A process whose first fifty draws are 0 and whose later draws
    are 0.5. *)
Definition process : MathRandom :=
  {| random := fun i => if (i <? 50)%nat then zero else half |}.

(** A 1x1 image whose pixel is white. *)
Definition white : Image :=
  {| width := 1; height := 1; red := fun _ _ => Byte.xff |}.

(** The generator the application builds, after loading [white]. *)
Definition generator : WorldGenerator.t :=
  @WorldGenerator.loadHeightMap
    (@WorldGenerator.new flat "world-sim") white.

(** The generator the application builds, with no height map. *)
Definition plain : WorldGenerator.t := @WorldGenerator.new flat "world-sim".

Definition a : CellInfo.t := CellInfo.mk "a" 0 0 1.
Definition b : CellInfo.t := CellInfo.mk "b" 0 90 1.

End TwoCells.

(** The same two cells on a slope: [top] lies above [foot], and both
    lie above a sea level of 0.5. *)
Module Slope.

Definition top : CellInfo.t := CellInfo.mk "a" 0 0 1.
Definition foot : CellInfo.t := CellInfo.mk "b" 0 90 0.6.
Definition cells : list CellInfo.t := [top; foot].

End Slope.

(* ===================================================================== *)
(** * ClimateSystem.getBiomeColor *)
(* ===================================================================== *)

Module BiomeColor.

(** The string a biome tag is in the source. *)
Definition tag (b : Biome) : string :=
  match b with
  | OCEAN => "OCEAN"
  | ICE => "ICE"
  | TUNDRA => "TUNDRA"
  | TROPICAL_RAINFOREST => "TROPICAL_RAINFOREST"
  | SAVANNA => "SAVANNA"
  | DESERT => "DESERT"
  | TEMPERATE_FOREST => "TEMPERATE_FOREST"
  | GRASSLAND => "GRASSLAND"
  | TAIGA => "TAIGA"
  | RIVER => "RIVER"
  end.

(** The tags [determineBiome] can return. *)
Definition tableBiomes : list Biome :=
  [OCEAN; ICE; TUNDRA; TROPICAL_RAINFOREST; SAVANNA; DESERT;
   TEMPERATE_FOREST; GRASSLAND; TAIGA].

Definition fallback : string := "#ff00ff".

(** The [switch] on the tag, cases in source order. *)
Definition getBiomeColor (biome : string) : string :=
  if String.eqb biome "OCEAN" then "#1da2d8"
  else if String.eqb biome "ICE" then "#ffffff"
  else if String.eqb biome "TUNDRA" then "#b7c2c4"
  else if String.eqb biome "TROPICAL_RAINFOREST" then "#005c09"
  else if String.eqb biome "SAVANNA" then "#a5bd2b"
  else if String.eqb biome "DESERT" then "#e0c380"
  else if String.eqb biome "TEMPERATE_FOREST" then "#2d8a2d"
  else if String.eqb biome "GRASSLAND" then "#6da832"
  else if String.eqb biome "TAIGA" then "#5b7c61"
  else fallback.

End BiomeColor.

(* ===================================================================== *)
(** * Sampling the height map, and the distance to a plate centre *)
(* ===================================================================== *)

Module Sampling.

(** [safeX] and [safeY] of the first pass of [generateWorld]. *)
Definition safeX (this : WorldGenerator.t) (lon : R) : Z :=
  let x := (lon + 180) / 360 * IZR (WorldGenerator.heightMapWidth this) in
  Z.max 0 (Z.min (WorldGenerator.heightMapWidth this - 1) (JS.floor x)).

Definition safeY (this : WorldGenerator.t) (lat : R) : Z :=
  let y := (90 - lat) / 180 * IZR (WorldGenerator.heightMapHeight this) in
  Z.max 0 (Z.min (WorldGenerator.heightMapHeight this - 1) (JS.floor y)).

(** [dist] of [generateTectonicPlates]: squared planar distance. *)
Definition dist (lat lon : R) (center : R * R) : R :=
  let dLat := lat - fst center in
  let dLon := lon - snd center in
  dLat * dLat + dLon * dLon.

(** The body of the inner [centerCoords.forEach], on the pair
    [(minDist, plateId)]. *)
Definition nearestStep (lat lon : R) (acc : option R * nat)
    (e : nat * (R * R)) : option R * nat :=
  let '(minDist, plateId) := acc in
  let '(pid, center) := e in
  if JS.ltInf (dist lat lon center) minDist then (Some (dist lat lon center), pid)
  else (minDist, plateId).

End Sampling.

(* ===================================================================== *)
(** * The earlier generateWorld (src/core/WorldGenerator.ts) *)
(* ===================================================================== *)

Module Earlier.

(** [CellData] before rivers: no [isRiver] field. *)
Record CellData : Type := mkCell {
  h3Index : string;
  lat : R;
  lon : R;
  height : R;
  temperature : R;
  moisture : R;
  biome : Biome
}.

(** One pass over the cells: height, then climate. *)
Definition generateWorld `{H3} (this : WorldGenerator.t) (resolution : nat)
    (seaLevel sunlight axialTilt rotationSpeed rotationPeriod orbitalPeriod : R)
    : list CellData :=
  let res0 := getRes0Cells in
  let allCells :=
    match resolution with
    | O => res0
    | _ => flat_map (fun c => cellToChildren c resolution) res0
    end in
  map (fun h3Index =>
         let '(lat, lon) := cellToLatLng h3Index in
         let heightVal :=
           match WorldGenerator.heightMapContext this with
           | Some ctx =>
               (* Simple Equirectangular projection *)
               let x := (lon + 180) / 360 * IZR (WorldGenerator.heightMapWidth this) in
               let y := (90 - lat) / 180 * IZR (WorldGenerator.heightMapHeight this) in
               (* Clamp *)
               let safeX :=
                 Z.max 0 (Z.min (WorldGenerator.heightMapWidth this - 1) (JS.floor x)) in
               let safeY :=
                 Z.max 0 (Z.min (WorldGenerator.heightMapHeight this - 1) (JS.floor y)) in
               let pixel := getImageData ctx safeX safeY in
               (* Grayscale assumption: r=g=b *)
               IZR (Z.of_N (Byte.to_N pixel)) / 255
           | None =>
               (* Generate procedural height *)
               let noiseVal := WorldGenerator.getNoise this lat lon in
               (noiseVal + 1) / 2
           end in
         (* Climate *)
         let insolation :=
           ClimateSystem.calculateInsolation lat lon axialTilt sunlight
             rotationPeriod orbitalPeriod in
         let temp := ClimateSystem.calculateTemperature insolation heightVal seaLevel in
         let moisture :=
           ClimateSystem.calculateMoisture lat heightVal seaLevel rotationSpeed in
         let biome := ClimateSystem.determineBiome temp moisture heightVal seaLevel in
         mkCell h3Index lat lon heightVal temp moisture biome)
      allCells.

(** A later record with its [isRiver] field dropped. *)
Definition forget (r : CellData.t) : CellData :=
  mkCell (CellData.h3Index r) (CellData.lat r) (CellData.lon r)
    (CellData.height r) (CellData.temperature r) (CellData.moisture r)
    (CellData.biome r).

End Earlier.

(* ===================================================================== *)
(** * Planet: where an instance is drawn (src/components/Planet.tsx) *)
(* ===================================================================== *)

Module Planet.

(** Tuned values for visual overlap *)
Definition scale (resolution : nat) : R :=
  let base := 2.8 in
  base / 2.2 ^ resolution.

(** Radius of one instance: ocean is flattened to sea level. *)
Definition radius (cell : CellData.t) (seaLevel : R) : R :=
  let r := 10 in
  let h :=
    if Rle_dec (CellData.height cell) seaLevel then seaLevel
    else CellData.height cell in
  r + (h - seaLevel) * 0.5.

(** Convert Lat/Lon to Cartesian: the argument of [dummy.position.set]. *)
Definition position (cell : CellData.t) (seaLevel : R) : R * R * R :=
  let radius := radius cell seaLevel in
  let phi := (90 - CellData.lat cell) * (PI / 180) in
  let theta := (CellData.lon cell + 180) * (PI / 180) in
  let x := - (radius * sin phi * cos theta) in
  let z := radius * sin phi * sin theta in
  let y := radius * cos phi in
  (x, y, z).

(** The argument of [new THREE.Color]. *)
Definition color (cell : CellData.t) : string :=
  BiomeColor.getBiomeColor (BiomeColor.tag (CellData.biome cell)).

(** [onPointerMove]: the cell handed to [onHover], if any. *)
Definition hovered (data : list CellData.t) (instanceId : option nat)
    : option (option CellData.t) :=
  match instanceId with
  | Some i => Some (nth_error data i)
  | None => None
  end.

End Planet.

(* ===================================================================== *)
(** * App: the calls the application makes (src/App.tsx) *)
(* ===================================================================== *)

Module App.

(** The [params] state. *)
Record Params : Type := {
  seaLevel : R;
  resolution : nat;
  axialTilt : R;
  sunlight : R;
  rotationSpeed : R;
  rotationPeriod : R;
  orbitalPeriod : R
}.

(** The initial value of [useState]. *)
Definition initial : Params :=
  {| seaLevel := 0.5;
     resolution := 2;
     axialTilt := 23.5;
     sunlight := 1;
     rotationSpeed := 1;
     rotationPeriod := 1;
     orbitalPeriod := 365 |}.

Section Handlers.
Context `{H3} `{SimplexNoise} `{MathRandom}.

(** [generate]: seven arguments are passed, so [generationMethod] takes
    its default, ['noise']. *)
Definition generate (generator : WorldGenerator.t) (params : Params) (pos : nat)
    : option (list CellData.t * nat) :=
  WorldGenerator.generateWorldFrom generator
    (resolution params) (seaLevel params) (sunlight params) (axialTilt params)
    (rotationSpeed params) (rotationPeriod params) (orbitalPeriod params)
    noise pos.

(** [handleFileChange], once the image has loaded. *)
Definition handleFileChange (generator : WorldGenerator.t) (img : Image)
    (params : Params) (pos : nat)
    : WorldGenerator.t * option (list CellData.t * nat) :=
  let generator := WorldGenerator.loadHeightMap generator img in
  (generator, generate generator params pos).

(** [handleRandomize]: [toString36] stands for [Number.prototype.toString]
    with radix 36. *)
Definition handleRandomize (toString36 : R -> string)
    (generator : WorldGenerator.t) (params : Params) (pos : nat)
    : WorldGenerator.t * option (list CellData.t * nat) :=
  let text := toString36 (JS.draw (random pos)) in
  let seed := String.substring 7 (String.length text - 7) text in
  let generator := WorldGenerator.setSeed generator seed in
  (generator, generate generator params (S pos)).
End Handlers.

End App.

(* ===================================================================== *)
(** * ClimateSystem: results *)
(* ===================================================================== *)

(** Case analysis on every comparison a goal branches on. *)
Ltac destruct_comparisons :=
  repeat match goal with
         | |- context [if ?c then _ else _] => destruct c
         end.

Section ClimateFacts.
Import ClimateSystem.

Lemma calculateMoisture_range (lat height seaLevel rotationSpeed : R) :
  0 <= calculateMoisture lat height seaLevel rotationSpeed <= 1.
Proof.
  unfold calculateMoisture.
  match goal with |- 0 <= Rmin 1 (Rmax 0 ?b) <= 1 => generalize b end.
  intros b. split.
  - apply Rmin_glb; [lra | apply Rmax_l].
  - apply Rmin_l.
Qed.

Lemma determineBiome_not_RIVER (temp moisture height seaLevel : R) :
  determineBiome temp moisture height seaLevel <> RIVER.
Proof.
  unfold determineBiome. destruct_comparisons; discriminate.
Qed.

Lemma determineBiome_ocean (temp moisture height seaLevel : R) :
  height <= seaLevel -> determineBiome temp moisture height seaLevel = OCEAN.
Proof.
  intros Hle. unfold determineBiome.
  destruct (Rle_dec height seaLevel); [reflexivity | contradiction].
Qed.

(** C3: the classifier is the decision table read in priority order:
    elevation <= seaLevel gives OCEAN; else temperature < -5 gives ICE;
    temperature < 5 gives TUNDRA; temperature > 20 gives
    TROPICAL_RAINFOREST, SAVANNA or DESERT by moisture > 0.8, > 0.4;
    temperature > 10 gives TEMPERATE_FOREST, GRASSLAND or DESERT by
    moisture > 0.6, > 0.3; otherwise TAIGA if moisture > 0.5, else
    TUNDRA.  Being a function of its four arguments it is pure. *)
Theorem determineBiome_decision_table (temp moisture height seaLevel : R) :
  determineBiome temp moisture height seaLevel
  = BiomeTable.classify temp moisture height seaLevel.
Proof.
  unfold determineBiome, BiomeTable.classify, BiomeTable.byMoisture,
    BiomeTable.atMost, BiomeTable.below, BiomeTable.above.
  cbn [BiomeTable.firstMatch map fst snd].
  destruct_comparisons; reflexivity.
Qed.

(** The bounds of the table are strict: a cell exactly at sea level is
    OCEAN, -5 degrees is TUNDRA, 20 degrees falls in the temperate band and
    10 degrees in the cold band. *)
Lemma determineBiome_boundaries :
  determineBiome 30 0.9 0.5 0.5 = OCEAN
  /\ determineBiome (-5) 0.9 1 0.5 = TUNDRA
  /\ determineBiome 20 0.9 1 0.5 = TEMPERATE_FOREST
  /\ determineBiome 10 0.9 1 0.5 = TAIGA
  /\ determineBiome 30 0.8 1 0.5 = SAVANNA.
Proof.
  unfold determineBiome.
  repeat split; destruct_comparisons; first [reflexivity | exfalso; lra].
Qed.
(** ** Insolation *)

Lemma deg_0 : 0 * PI / 180 = 0.
Proof. lra. Qed.

Lemma deg_180 : 180 * PI / 180 = PI.
Proof. lra. Qed.

Lemma deg_90 : 90 * PI / 180 = PI / 2.
Proof. lra. Qed.

Lemma cos_deg_180 : cos (180 * PI / 180) = -1.
Proof. rewrite deg_180. apply cos_PI. Qed.

Lemma cos_deg_m180 : cos (-180 * PI / 180) = -1.
Proof.
  replace (-180 * PI / 180) with (- PI) by lra.
  rewrite cos_neg. apply cos_PI.
Qed.

Lemma cos_deg_90 : cos (90 * PI / 180) = 0.
Proof. rewrite deg_90. apply cos_PI2. Qed.

Lemma cos_deg_m90 : cos (-90 * PI / 180) = 0.
Proof.
  replace (-90 * PI / 180) with (- (PI / 2)) by lra.
  rewrite cos_neg. apply cos_PI2.
Qed.

Lemma cos_latitude_nonneg (lat : R) :
  -90 <= lat <= 90 -> 0 <= cos (lat * PI / 180).
Proof.
  intros [Hlo Hhi]. pose proof PI_RGT_0 as Hpi.
  apply cos_ge_0; nra.
Qed.

Lemma insolation_locked (lat lon tilt sunlight rotationPeriod orbitalPeriod : R) :
  Rabs (rotationPeriod - orbitalPeriod) < 0.1 ->
  calculateInsolation lat lon tilt sunlight rotationPeriod orbitalPeriod
  = Rmax 0 (cos (lat * PI / 180) * cos (lon * PI / 180)) * sunlight.
Proof.
  intros Hlock. unfold calculateInsolation.
  destruct (Rlt_dec (Rabs (rotationPeriod - orbitalPeriod)) 0.1) as [_ | Hn];
    [| contradiction].
  cbv zeta.
  destruct (Rlt_dec (cos (lat * PI / 180) * cos (lon * PI / 180)) 0) as [Hneg | Hpos].
  - rewrite Rmax_left by lra. reflexivity.
  - rewrite Rmax_right by lra. reflexivity.
Qed.

Lemma insolation_unlocked (lat lon tilt sunlight rotationPeriod orbitalPeriod : R) :
  ~ Rabs (rotationPeriod - orbitalPeriod) < 0.1 ->
  calculateInsolation lat lon tilt sunlight rotationPeriod orbitalPeriod
  = cos (lat * PI / 180) * sunlight.
Proof.
  intros Hfree. unfold calculateInsolation.
  destruct (Rlt_dec (Rabs (rotationPeriod - orbitalPeriod)) 0.1);
    [contradiction | reflexivity].
Qed.

(** C8: the tidal-lock model is used exactly when
    |rotationPeriod - orbitalPeriod| < 0.1; there the result is
    max(0, cos(lat) cos(lon)) * sunlight, which is [sunlight] at
    (lat, lon) = (0, 0) and 0 at lon = +-180 (for a latitude in
    [-90, 90]) and at lat = +-90; otherwise the result is
    cos(lat) * sunlight; the tilt argument never matters. *)
Theorem calculateInsolation_regimes
    (lat lon tilt tilt' sunlight rotationPeriod orbitalPeriod : R) :
  (Rabs (rotationPeriod - orbitalPeriod) < 0.1 ->
     calculateInsolation lat lon tilt sunlight rotationPeriod orbitalPeriod
     = Rmax 0 (cos (lat * PI / 180) * cos (lon * PI / 180)) * sunlight
     /\ calculateInsolation 0 0 tilt sunlight rotationPeriod orbitalPeriod
        = sunlight
     /\ (-90 <= lat <= 90 ->
         calculateInsolation lat 180 tilt sunlight rotationPeriod orbitalPeriod = 0
         /\ calculateInsolation lat (-180) tilt sunlight rotationPeriod orbitalPeriod = 0)
     /\ calculateInsolation 90 lon tilt sunlight rotationPeriod orbitalPeriod = 0
     /\ calculateInsolation (-90) lon tilt sunlight rotationPeriod orbitalPeriod = 0)
  /\ (~ Rabs (rotationPeriod - orbitalPeriod) < 0.1 ->
        calculateInsolation lat lon tilt sunlight rotationPeriod orbitalPeriod
        = cos (lat * PI / 180) * sunlight)
  /\ calculateInsolation lat lon tilt' sunlight rotationPeriod orbitalPeriod
     = calculateInsolation lat lon tilt sunlight rotationPeriod orbitalPeriod.
Proof.
  split; [| split].
  - intros Hlock. split; [| split; [| split; [| split]]].
    + apply insolation_locked, Hlock.
    + rewrite insolation_locked by exact Hlock.
      rewrite deg_0, cos_0, Rmax_right by lra. lra.
    + intros Hlat. pose proof (cos_latitude_nonneg lat Hlat) as Hc.
      rewrite !insolation_locked by exact Hlock.
      rewrite cos_deg_180, cos_deg_m180, Rmax_left by lra. lra.
    + rewrite insolation_locked by exact Hlock.
      rewrite cos_deg_90, Rmult_0_l, Rmax_left by lra. lra.
    + rewrite insolation_locked by exact Hlock.
      rewrite cos_deg_m90, Rmult_0_l, Rmax_left by lra. lra.
  - apply insolation_unlocked.
  - reflexivity.
Qed.

(** The regimes at a locked planet (both periods 1), latitude 45. *)
Lemma calculateInsolation_regimes_witness :
  ClimateSystem.calculateInsolation 0 0 23.5 1 1 1 = 1
  /\ ClimateSystem.calculateInsolation 45 180 23.5 1 1 1 = 0
  /\ ClimateSystem.calculateInsolation 90 30 23.5 1 1 1 = 0.
Proof.
  assert (Hlock : Rabs (1 - 1) < 0.1).
  { replace (1 - 1) with 0 by lra. rewrite Rabs_R0. lra. }
  destruct (calculateInsolation_regimes 45 30 23.5 0 1 1 1) as [Hlocked _].
  destruct (Hlocked Hlock) as (_ & H0 & H180 & H90 & _).
  split; [exact H0 | split; [| exact H90]].
  apply H180. lra.
Defined.
End ClimateFacts.

(* ===================================================================== *)
(** * simulateRivers: results *)
(* ===================================================================== *)

Section RiverFacts.
Import WorldGenerator RiverSpec.
Context {grid : H3} {rng : MathRandom}.

(** ** Indexing with a draw *)

Lemma randomIndex_lt (u : JS.Draw) (n : nat) :
  (0 < n)%nat -> (JS.randomIndex u n < n)%nat.
Proof.
  intros Hn. unfold JS.randomIndex, JS.floor.
  destruct (base_Int_part (JS.draw u * INR n)) as [Hle Hgt].
  pose proof (JS.draw_nonneg u) as Hu0.
  pose proof (JS.draw_below_one u) as Hu1.
  assert (Hpos : 0 < INR n) by (apply lt_0_INR; exact Hn).
  assert (Hub : IZR (Int_part (JS.draw u * INR n)) < IZR (Z.of_nat n)).
  { rewrite <- INR_IZR_INZ. nra. }
  apply lt_IZR in Hub.
  assert (Hlb : IZR (-1) < IZR (Int_part (JS.draw u * INR n))) by nra.
  apply lt_IZR in Hlb.
  lia.
Qed.

Lemma startCell_In (candidates : list CellInfo.t) (c0 : CellInfo.t) (pos : nat) :
  In c0 candidates -> In (startCell candidates c0 pos) candidates.
Proof.
  intros Hin. unfold startCell. apply nth_In, randomIndex_lt.
  destruct candidates; [contradiction | simpl; lia].
Qed.

(** ** The neighbour scan *)

Section Scan.
Variable heightMap : gmap string R.
Variable cur : CellInfo.t.

Lemma scanned_low (seen : list string) (acc : option string * R) :
  scanned heightMap cur seen acc -> snd acc <= CellInfo.height cur.
Proof.
  intros [Hbest _]. destruct (fst acc); [| lra].
  destruct Hbest as (_ & _ & _ & Hlt). lra.
Qed.

Lemma scanned_more (seen : list string) (acc : option string * R) (n : string) :
  scanned heightMap cur seen acc ->
  (forall h, n <> CellInfo.h3Index cur -> heightMap !! n = Some h -> snd acc <= h) ->
  scanned heightMap cur (seen ++ [n]) acc.
Proof.
  intros [Hbest Hmin] Hn. split.
  - destruct (fst acc) as [b |]; [| exact Hbest].
    destruct Hbest as (Hin & Hrest). split; [| exact Hrest].
    apply in_or_app. left. exact Hin.
  - intros n' h Hin Hne Hlk. apply in_app_or in Hin as [Hin | [<- | []]].
    + eapply Hmin; eassumption.
    + apply Hn; assumption.
Qed.

Lemma scanned_step (seen : list string) (acc : option string * R) (n : string) :
  scanned heightMap cur seen acc ->
  scanned heightMap cur (seen ++ [n]) (scanStep heightMap cur acc n).
Proof.
  intros Hinv. pose proof (scanned_low seen acc Hinv) as Hlow.
  destruct acc as [best low]. unfold scanStep.
  destruct (String.eqb_spec n (CellInfo.h3Index cur)) as [Heq | Hne].
  { apply scanned_more; [exact Hinv | intros h Hc; contradiction]. }
  destruct (heightMap !! n) as [h |] eqn:Hlk.
  2: { apply scanned_more; [exact Hinv | intros h _ Hc; congruence]. }
  destruct (Rlt_dec h low) as [Hlt | Hge].
  2: { apply scanned_more; [exact Hinv |].
       intros h' _ Hc. rewrite Hlk in Hc. injection Hc as <-. simpl. lra. }
  destruct Hinv as [_ Hmin]. simpl in *. split; simpl.
  - repeat split; [apply in_or_app; right; left; reflexivity
                  | exact Hne | exact Hlk | lra].
  - intros n' h' Hin Hne' Hlk'.
    apply in_app_or in Hin as [Hin | [<- | []]].
    + specialize (Hmin n' h' Hin Hne' Hlk'). lra.
    + rewrite Hlk in Hlk'. injection Hlk' as <-. lra.
Qed.

Lemma scanned_fold (l seen : list string) (acc : option string * R) :
  scanned heightMap cur seen acc ->
  scanned heightMap cur (seen ++ l) (fold_left (scanStep heightMap cur) l acc).
Proof.
  revert seen acc. induction l as [| n l IH]; intros seen acc Hinv.
  - rewrite app_nil_r. exact Hinv.
  - simpl. replace (seen ++ n :: l) with ((seen ++ [n]) ++ l)
      by (rewrite <- app_assoc; reflexivity).
    apply IH, scanned_step, Hinv.
Qed.

Lemma lowestNeighbor_scanned :
  scanned heightMap cur (gridDisk1 (CellInfo.h3Index cur))
    (lowestNeighbor heightMap cur).
Proof.
  unfold lowestNeighbor.
  apply (scanned_fold (gridDisk1 (CellInfo.h3Index cur)) [] (None, CellInfo.height cur)).
  split; [reflexivity | intros n' h []].
Qed.
End Scan.
(** ** One walk *)

Section Walk.
Variable seaLevel : R.
Variable heightMap : gmap string R.

Lemma walkPath_stop_sea (remaining : nat) (cur : CellInfo.t) :
  CellInfo.height cur <= seaLevel ->
  walkPath seaLevel heightMap remaining cur = [].
Proof.
  intros Hle. destruct remaining as [| r]; [reflexivity |]. simpl.
  destruct (Rgt_dec (CellInfo.height cur) seaLevel) as [Hgt | _];
    [lra | reflexivity].
Qed.

Lemma walkPath_stop_minimum (remaining : nat) (cur : CellInfo.t) :
  CellInfo.height cur > seaLevel ->
  fst (lowestNeighbor heightMap cur) = None ->
  walkPath seaLevel heightMap (S remaining) cur = [cur].
Proof.
  intros Hgt Hnone. simpl.
  destruct (Rgt_dec (CellInfo.height cur) seaLevel) as [_ | Hn];
    [| contradiction].
  destruct (lowestNeighbor heightMap cur) as [best low].
  simpl in Hnone. subst best. reflexivity.
Qed.

Lemma walkPath_move (remaining : nat) (cur : CellInfo.t) (n : string) (h : R) :
  CellInfo.height cur > seaLevel ->
  lowestNeighbor heightMap cur = (Some n, h) ->
  n <> EmptyString ->
  walkPath seaLevel heightMap (S remaining) cur
  = cur :: walkPath seaLevel heightMap remaining (CellInfo.mk n 0 0 h).
Proof.
  intros Hgt Hbest Hne. simpl.
  destruct (Rgt_dec (CellInfo.height cur) seaLevel) as [_ | Hn];
    [| contradiction].
  rewrite Hbest. simpl.
  destruct (String.eqb_spec n EmptyString) as [-> | _];
    [contradiction | reflexivity].
Qed.

Lemma walkPath_marks_here (remaining : nat) (cur : CellInfo.t) :
  CellInfo.height cur > seaLevel ->
  In cur (walkPath seaLevel heightMap (S remaining) cur).
Proof.
  intros Hgt. simpl.
  destruct (Rgt_dec (CellInfo.height cur) seaLevel);
    [left; reflexivity | contradiction].
Qed.

(** The path is empty or starts at the start cell. *)
Lemma walkPath_head (remaining : nat) (cur : CellInfo.t) :
  walkPath seaLevel heightMap remaining cur = []
  \/ exists rest, walkPath seaLevel heightMap remaining cur = cur :: rest.
Proof.
  destruct remaining as [| r]; [left; reflexivity |]. simpl.
  destruct (Rgt_dec (CellInfo.height cur) seaLevel);
    [right; eexists; reflexivity | left; reflexivity].
Qed.

Lemma walkPath_length (remaining : nat) (cur : CellInfo.t) :
  (length (walkPath seaLevel heightMap remaining cur) <= remaining)%nat.
Proof.
  revert cur. induction remaining as [| r IH]; intros cur; simpl; [lia |].
  destruct (Rgt_dec (CellInfo.height cur) seaLevel); simpl; [| lia].
  destruct (lowestNeighbor heightMap cur) as [[n |] low]; simpl; [| lia].
  destruct (negb (String.eqb n EmptyString)); simpl; [| lia].
  specialize (IH (CellInfo.mk n 0 0 low)). lia.
Qed.

Lemma walkPath_above_sea (remaining : nat) (cur c : CellInfo.t) :
  In c (walkPath seaLevel heightMap remaining cur) ->
  CellInfo.height c > seaLevel.
Proof.
  revert cur. induction remaining as [| r IH]; intros cur; simpl; [intros [] |].
  destruct (Rgt_dec (CellInfo.height cur) seaLevel) as [Hgt |]; [| intros []].
  intros [<- | Hin]; [exact Hgt |].
  destruct (lowestNeighbor heightMap cur) as [[n |] low]; [| destruct Hin].
  destruct (JS.truthy (Some n)); [| destruct Hin].
  eapply IH, Hin.
Qed.

(** Every marked cell is the start cell or a cell whose recorded height
    is the height the walk carries for it. *)
Lemma walkPath_recorded (remaining : nat) (cur c : CellInfo.t) :
  In c (walkPath seaLevel heightMap remaining cur) ->
  c = cur \/ heightMap !! CellInfo.h3Index c = Some (CellInfo.height c).
Proof.
  revert cur. induction remaining as [| r IH]; intros cur; simpl; [intros [] |].
  destruct (Rgt_dec (CellInfo.height cur) seaLevel); [| intros []].
  intros [<- | Hin]; [left; reflexivity |]. right.
  pose proof (lowestNeighbor_scanned heightMap cur) as [Hbest _].
  destruct (lowestNeighbor heightMap cur) as [[n |] low]; [| destruct Hin].
  destruct (JS.truthy (Some n)); [| destruct Hin].
  simpl in Hbest. destruct Hbest as (_ & _ & Hlk & _).
  apply IH in Hin as [-> | Hrec]; [exact Hlk | exact Hrec].
Qed.

Lemma walkPath_descending (remaining : nat) (cur : CellInfo.t) :
  descending heightMap (walkPath seaLevel heightMap remaining cur).
Proof.
  revert cur. induction remaining as [| r IH]; intros cur; [exact I |].
  cbn [walkPath].
  destruct (Rgt_dec (CellInfo.height cur) seaLevel); [| exact I].
  pose proof (lowestNeighbor_scanned heightMap cur) as [Hbest _].
  destruct (lowestNeighbor heightMap cur) as [[n |] low]; [| exact I].
  destruct (JS.truthy (Some n)); [| exact I].
  simpl in Hbest. destruct Hbest as (Hin & Hne & Hlk & Hlt).
  specialize (IH (CellInfo.mk n 0 0 low)).
  destruct (walkPath_head r (CellInfo.mk n 0 0 low)) as [Hnil | [rest Hcons]].
  - rewrite Hnil. exact I.
  - rewrite Hcons in IH |- *. cbn [descending]. simpl. auto.
Qed.

(** What follows a cell on the path is the walk started at that cell
    with the moves that are left. *)
Lemma walkPath_suffix (remaining : nat) (cur c : CellInfo.t)
    (before after : list CellInfo.t) :
  walkPath seaLevel heightMap remaining cur = before ++ c :: after ->
  c :: after
  = walkPath seaLevel heightMap (remaining - length before) c.
Proof.
  revert remaining cur. induction before as [| b before IH];
    intros remaining cur Hpath.
  - simpl in *. rewrite Nat.sub_0_r.
    destruct (walkPath_head remaining cur) as [Hnil | [rest Hcons]].
    + rewrite Hnil in Hpath. discriminate.
    + rewrite Hcons in Hpath. injection Hpath as -> ->.
      symmetry. exact Hcons.
  - destruct remaining as [| r]; [discriminate |].
    cbn [walkPath] in Hpath.
    destruct (Rgt_dec (CellInfo.height cur) seaLevel); [| discriminate].
    simpl in Hpath. injection Hpath as _ Hpath.
    destruct (lowestNeighbor heightMap cur) as [[n |] low];
      [| destruct before; discriminate].
    destruct (JS.truthy (Some n)); [| destruct before; discriminate].
    simpl. eapply IH, Hpath.
Qed.

(** A marked cell with no strictly lower neighbour ends the walk. *)
Lemma walkPath_stops_at_minimum (remaining : nat) (cur c : CellInfo.t)
    (before after : list CellInfo.t) :
  walkPath seaLevel heightMap remaining cur = before ++ c :: after ->
  localMinimum heightMap c -> after = [].
Proof.
  intros Hpath Hmin.
  assert (Hc : CellInfo.height c > seaLevel).
  { apply (walkPath_above_sea remaining cur). rewrite Hpath.
    apply in_or_app. right. left. reflexivity. }
  apply walkPath_suffix in Hpath.
  destruct (remaining - length before)%nat as [| r]; [discriminate |].
  pose proof (lowestNeighbor_scanned heightMap c) as [Hbest _].
  destruct (lowestNeighbor heightMap c) as [[n |] low] eqn:Hscan.
  - simpl in Hbest. destruct Hbest as (Hin & Hne & Hlk & Hlt).
    specialize (Hmin n low Hin Hne Hlk). lra.
  - rewrite walkPath_stop_minimum in Hpath by (try rewrite Hscan; auto).
    injection Hpath as ->. reflexivity.
Qed.

(** Why a walk ended at its last marked cell: the step cap, a local
    minimum, or a lowest neighbour at or below sea level. *)
Lemma walkPath_last (remaining : nat) (cur c : CellInfo.t)
    (before : list CellInfo.t) :
  (forall x, ~ In EmptyString (gridDisk1 x)) ->
  walkPath seaLevel heightMap remaining cur = before ++ [c] ->
  length (walkPath seaLevel heightMap remaining cur) = remaining
  \/ localMinimum heightMap c
  \/ exists n h, lowestNeighbor heightMap c = (Some n, h) /\ h <= seaLevel.
Proof.
  intros Hids Hpath.
  assert (Hc : CellInfo.height c > seaLevel).
  { apply (walkPath_above_sea remaining cur). rewrite Hpath.
    apply in_or_app. right. left. reflexivity. }
  assert (Hlen : length (walkPath seaLevel heightMap remaining cur)
                 = S (length before)).
  { rewrite Hpath, length_app. simpl. lia. }
  pose proof (walkPath_length remaining cur) as Hcap.
  pose proof (walkPath_suffix _ _ _ _ _ Hpath) as Hsuf.
  destruct (remaining - length before)%nat as [| [| r]] eqn:Hleft;
    [discriminate | left; lia |].
  right.
  pose proof (lowestNeighbor_scanned heightMap c) as [Hbest Hall].
  destruct (lowestNeighbor heightMap c) as [[n |] low] eqn:Hscan.
  - right. exists n, low. split; [reflexivity |].
    simpl in Hbest. destruct Hbest as (Hin & _).
    assert (Hn : n <> EmptyString) by (intros ->; exact (Hids _ Hin)).
    rewrite (walkPath_move _ _ _ _ Hc Hscan Hn) in Hsuf.
    destruct (Rle_dec low seaLevel) as [Hle | Hgt]; [exact Hle |].
    exfalso.
    assert (Hmark : In (CellInfo.mk n 0 0 low)
                      (walkPath seaLevel heightMap (S r) (CellInfo.mk n 0 0 low))).
    { apply walkPath_marks_here. simpl. lra. }
    remember (walkPath seaLevel heightMap (S r) (CellInfo.mk n 0 0 low)) as rest.
    injection Hsuf as Hnext. subst rest. rewrite <- Hnext in Hmark.
    destruct Hmark.
  - left. intros n h Hin Hne Hlk. simpl in Hbest, Hall.
    rewrite <- Hbest. eapply Hall; eassumption.
Qed.

(** The set a walk returns: the marked cells, added to what was there. *)
Lemma descend_walkPath (remaining : nat) (cur : CellInfo.t) (rs : gset string) :
  descend seaLevel heightMap remaining cur rs
  = list_to_set (map CellInfo.h3Index (walkPath seaLevel heightMap remaining cur)) ∪ rs.
Proof.
  assert (Hone : forall (x : string) (s : gset string),
             {[x]} ∪ s = list_to_set [x] ∪ s).
  { intros x s. rewrite list_to_set_cons, list_to_set_nil.
    rewrite (right_id_L ∅ (∪)). reflexivity. }
  revert cur rs. induction remaining as [| r IH]; intros cur rs; simpl.
  - rewrite (left_id_L ∅ (∪)). reflexivity.
  - destruct (Rgt_dec (CellInfo.height cur) seaLevel); simpl;
      [| rewrite (left_id_L ∅ (∪)); reflexivity].
    destruct (lowestNeighbor heightMap cur) as [[n |] low];
      [| apply Hone].
    destruct (JS.truthy (Some n)); [| apply Hone].
    rewrite IH. simpl.
    rewrite (assoc_L (∪)), (comm_L (∪) _ {[CellInfo.h3Index cur]}).
    reflexivity.
Qed.

(** The [while] loop with its own counter: started with
    [pathLength <= 100] it runs at most [100 - pathLength] bodies,
    never runs out of fuel when given that many, and ends with the set
    [descend] computes. *)
Lemma whileLoop_descend (fuel : nat) (st : WalkState) :
  (pathLength st <= maxPathLength)%nat ->
  (maxPathLength - pathLength st <= fuel)%nat ->
  exists st',
    whileLoop seaLevel heightMap fuel st = Some st'
    /\ rivers st'
       = descend seaLevel heightMap (maxPathLength - pathLength st)
           (current st) (rivers st)
    /\ (pathLength st' <= maxPathLength)%nat.
Proof.
  unfold maxPathLength.
  remember (100 - pathLength st)%nat as k eqn:Hk.
  revert fuel st Hk. induction k as [| k IH]; intros fuel st Hk Hpl Hfuel.
  - exists st. assert (Hc : whileCond seaLevel st = false).
    { unfold whileCond. apply andb_false_iff. right.
      apply Nat.ltb_ge. unfold maxPathLength. lia. }
    destruct fuel; simpl; rewrite Hc; auto.
  - destruct fuel as [| fuel]; [lia |].
    cbn [whileLoop descend]. unfold whileCond.
    destruct (Rgt_dec (CellInfo.height (current st)) seaLevel) as [Hgt | Hle];
      cbn [andb]; [| exists st; auto].
    assert (Hlt : (pathLength st <? maxPathLength)%nat = true)
      by (apply Nat.ltb_lt; unfold maxPathLength; lia).
    rewrite Hlt. unfold whileBody.
    destruct (lowestNeighbor heightMap (current st)) as [[n |] low].
    + destruct (JS.truthy (Some n)).
      * edestruct (IH fuel
          {| current := CellInfo.mk n 0 0 low;
             pathLength := S (pathLength st);
             rivers := {[CellInfo.h3Index (current st)]} ∪ rivers st |})
          as (st' & Hrun & Hrs & Hpl');
          [simpl; lia | simpl; lia | simpl; lia |].
        exists st'. simpl in Hrs. auto.
      * eexists. split; [reflexivity |]. simpl. auto.
    + eexists. split; [reflexivity |]. simpl. auto.
Qed.

Lemma descend_elem (x : string) (remaining : nat) (cur : CellInfo.t)
    (rs : gset string) :
  x ∈ descend seaLevel heightMap remaining cur rs
  <-> In x (map CellInfo.h3Index (walkPath seaLevel heightMap remaining cur)) \/ x ∈ rs.
Proof.
  rewrite descend_walkPath, elem_of_union, elem_of_list_to_set,
    list_elem_of_In.
  reflexivity.
Qed.

(** ** The loop over the rivers *)

Lemma riverLoop_no_candidates (todo pos : nat) (rs : gset string) :
  riverLoop seaLevel heightMap [] todo pos rs = (rs, pos).
Proof. destruct todo; reflexivity. Qed.

Lemma riverLoop_position (candidates : list CellInfo.t) (todo pos : nat)
    (rs : gset string) :
  candidates <> [] ->
  snd (riverLoop seaLevel heightMap candidates todo pos rs) = (pos + todo)%nat.
Proof.
  intros Hne. revert pos rs.
  induction todo as [| todo IH]; intros pos rs; simpl; [lia |].
  destruct candidates as [| c0 cs]; [contradiction |].
  rewrite IH. lia.
Qed.

Lemma riverLoop_elem (x : string) (c0 : CellInfo.t) (cs : list CellInfo.t)
    (todo pos : nat) (rs : gset string) :
  x ∈ fst (riverLoop seaLevel heightMap (c0 :: cs) todo pos rs)
  <-> x ∈ rs
      \/ exists i, (i < todo)%nat
           /\ In x (map CellInfo.h3Index (walkPath seaLevel heightMap maxPathLength
                           (startCell (c0 :: cs) c0 (pos + i)))).
Proof.
  revert pos rs. induction todo as [| todo IH]; intros pos rs.
  - simpl. split; [auto | intros [Hin | (i & Hi & _)]; [exact Hin | lia]].
  - cbn [riverLoop]. rewrite IH, descend_elem. split.
    + intros [[Hpath | Hrs] | (i & Hi & Hpath)].
      * right. exists 0%nat. rewrite Nat.add_0_r. split; [lia | exact Hpath].
      * left. exact Hrs.
      * right. exists (S i).
        replace (pos + S i)%nat with (S pos + i)%nat by lia.
        split; [lia | exact Hpath].
    + intros [Hrs | (i & Hi & Hpath)]; [auto |].
      destruct i as [| i].
      * rewrite Nat.add_0_r in Hpath. auto.
      * right. exists i.
        replace (S pos + i)%nat with (pos + S i)%nat by lia.
        split; [lia | exact Hpath].
Qed.
End Walk.

(** ** The height map and the candidates *)

Lemma buildHeightMap_lookup (cells : list CellInfo.t) (k : string) (h : R) :
  buildHeightMap cells !! k = Some h ->
  exists c, In c cells /\ CellInfo.h3Index c = k /\ CellInfo.height c = h.
Proof.
  unfold buildHeightMap.
  assert (Hgen : forall (m : gmap string R),
    fold_left (fun (m : gmap string R) c =>
                 <[CellInfo.h3Index c := CellInfo.height c]> m) cells m !! k
    = Some h ->
    m !! k = Some h
    \/ exists c, In c cells /\ CellInfo.h3Index c = k /\ CellInfo.height c = h).
  { induction cells as [| c cells IH]; intros m Hlk; simpl in *; [auto |].
    apply IH in Hlk as [Hlk | (c' & Hin & Hid & Hh)].
    - destruct (decide (CellInfo.h3Index c = k)) as [Heq | Hne].
      + subst k. rewrite lookup_insert_eq in Hlk. injection Hlk as <-.
        right. exists c. auto.
      + rewrite lookup_insert_ne in Hlk by exact Hne. auto.
    - right. exists c'. auto. }
  intros Hlk. apply Hgen in Hlk as [Hlk | Hex]; [| exact Hex].
  rewrite lookup_empty in Hlk. discriminate.
Qed.

(** [Map.set] keeps the entries of the other keys. *)
Lemma heightMap_fold_keep (cells : list CellInfo.t) (m : gmap string R)
    (k : string) :
  (forall c, In c cells -> CellInfo.h3Index c <> k) ->
  fold_left (fun (m : gmap string R) c =>
               <[CellInfo.h3Index c := CellInfo.height c]> m) cells m !! k
  = m !! k.
Proof.
  revert m. induction cells as [| c cells IH]; intros m Hother; [reflexivity |].
  simpl. rewrite IH by (intros c' Hin; apply Hother; right; exact Hin).
  apply lookup_insert_ne, Hother. left. reflexivity.
Qed.

(** The height recorded for an id is that of the last cell carrying it. *)
Lemma buildHeightMap_last (before after : list CellInfo.t) (c : CellInfo.t) :
  (forall c', In c' after -> CellInfo.h3Index c' <> CellInfo.h3Index c) ->
  buildHeightMap (before ++ c :: after) !! CellInfo.h3Index c
  = Some (CellInfo.height c).
Proof.
  intros Hlast. unfold buildHeightMap. rewrite fold_left_app. simpl.
  rewrite heightMap_fold_keep by exact Hlast.
  apply lookup_insert_eq.
Qed.

Lemma buildHeightMap_records (cells : list CellInfo.t) (c : CellInfo.t) :
  List.NoDup (map CellInfo.h3Index cells) -> In c cells ->
  buildHeightMap cells !! CellInfo.h3Index c = Some (CellInfo.height c).
Proof.
  intros Hnd Hin. apply in_split in Hin as (before & after & ->).
  apply buildHeightMap_last. intros c' Hin' Heq.
  rewrite map_app in Hnd. simpl in Hnd.
  apply List.NoDup_remove_2 in Hnd. apply Hnd, in_or_app. right.
  rewrite <- Heq. apply in_map, Hin'.
Qed.

Lemma riverCandidates_In (cells : list CellInfo.t) (seaLevel : R) (c : CellInfo.t) :
  In c (riverCandidates cells seaLevel)
  <-> In c cells /\ CellInfo.height c > seaLevel + 0.3.
Proof.
  unfold riverCandidates. rewrite filter_In.
  destruct (Rgt_dec (CellInfo.height c) (seaLevel + 0.3)); intuition discriminate.
Qed.

Lemma simulateRivers_no_candidates (cells : list CellInfo.t) (seaLevel : R)
    (pos : nat) :
  riverCandidates cells seaLevel = [] ->
  simulateRiversFrom cells seaLevel pos = (∅, pos).
Proof.
  intros Hnone. unfold simulateRiversFrom. rewrite Hnone.
  apply riverLoop_no_candidates.
Qed.

(** C6: the candidate sources are exactly the cells with
    elevation > seaLevel + 0.3, and with no candidate the river set is
    empty (and no draw is read); so it is at seaLevel = 0.9 when no
    elevation exceeds 0.9. *)
Theorem simulateRivers_candidates (cells : list CellInfo.t) (seaLevel : R)
    (pos : nat) :
  (forall c, In c (riverCandidates cells seaLevel)
             <-> In c cells /\ CellInfo.height c > seaLevel + 0.3)
  /\ (riverCandidates cells seaLevel = [] ->
      simulateRivers cells seaLevel pos = ∅
      /\ simulateRiversFrom cells seaLevel pos = (∅, pos))
  /\ ((forall c, In c cells -> CellInfo.height c <= 0.9) ->
      riverCandidates cells 0.9 = []
      /\ simulateRivers cells 0.9 pos = ∅).
Proof.
  split; [| split].
  - intros c. apply riverCandidates_In.
  - intros Hnone. unfold simulateRivers.
    rewrite (simulateRivers_no_candidates cells seaLevel pos Hnone). auto.
  - intros Hlow.
    assert (Hnone : riverCandidates cells 0.9 = []).
    { destruct (riverCandidates cells 0.9) as [| c cs] eqn:Hc; [reflexivity |].
      assert (Hin : In c (riverCandidates cells 0.9)) by (rewrite Hc; left; reflexivity).
      apply riverCandidates_In in Hin as [Hin Hgt].
      specialize (Hlow c Hin). lra. }
    split; [exact Hnone |]. unfold simulateRivers.
    rewrite (simulateRivers_no_candidates cells 0.9 pos Hnone). reflexivity.
Qed.

(** ** The river set *)

Lemma simulateRivers_elem (cells : list CellInfo.t) (seaLevel : R) (pos : nat)
    (x : string) :
  x ∈ simulateRivers cells seaLevel pos
  <-> exists c0 cs i,
        riverCandidates cells seaLevel = c0 :: cs
        /\ (i < numRivers)%nat
        /\ In x (map CellInfo.h3Index
                   (walkPath seaLevel (buildHeightMap cells) maxPathLength
                      (startCell (c0 :: cs) c0 (pos + i)))).
Proof.
  unfold simulateRivers, simulateRiversFrom.
  destruct (riverCandidates cells seaLevel) as [| c0 cs] eqn:Hc.
  - rewrite riverLoop_no_candidates. simpl. split.
    + intros Hin. apply not_elem_of_empty in Hin. contradiction.
    + intros (c & cs' & i & Hnil & _). discriminate.
  - rewrite riverLoop_elem. split.
    + intros [Hin | (i & Hi & Hpath)].
      * apply not_elem_of_empty in Hin. contradiction.
      * exists c0, cs, i. auto.
    + intros (c & cs' & i & Heq & Hi & Hpath).
      injection Heq as <- <-. right. exists i. auto.
Qed.

(** The cell a river starts at is always marked. *)
Lemma simulateRivers_start_marked (cells : list CellInfo.t) (seaLevel : R)
    (pos i : nat) (c0 : CellInfo.t) (cs : list CellInfo.t) :
  riverCandidates cells seaLevel = c0 :: cs ->
  (i < numRivers)%nat ->
  CellInfo.h3Index (startCell (c0 :: cs) c0 (pos + i))
    ∈ simulateRivers cells seaLevel pos.
Proof.
  intros Hc Hi. apply simulateRivers_elem. exists c0, cs, i.
  split; [exact Hc | split; [exact Hi |]].
  apply in_map, walkPath_marks_here.
  assert (Hin : In (startCell (c0 :: cs) c0 (pos + i)) (riverCandidates cells seaLevel)).
  { rewrite Hc. apply startCell_In. left. reflexivity. }
  apply riverCandidates_In in Hin as [_ Hgt]. lra.
Qed.

(** C10: every id in the set [simulateRivers] returns belongs to a cell
    of its input whose elevation is strictly above seaLevel: the loop
    condition is checked before a cell is marked, so a cell at or below
    sea level that a walk reaches is not added. *)
Theorem simulateRivers_above_sea_level (cells : list CellInfo.t) (seaLevel : R)
    (pos : nat) (x : string) :
  x ∈ simulateRivers cells seaLevel pos ->
  exists c, In c cells /\ CellInfo.h3Index c = x
            /\ CellInfo.height c > seaLevel.
Proof.
  intros Hx. apply simulateRivers_elem in Hx as (c0 & cs & i & Hc & Hi & Hpath).
  apply in_map_iff in Hpath as (c & Hid & Hin).
  pose proof (walkPath_above_sea _ _ _ _ _ Hin) as Habove.
  apply walkPath_recorded in Hin as [-> | Hrec].
  - exists (startCell (c0 :: cs) c0 (pos + i)). split; [| auto].
    assert (Hin : In (startCell (c0 :: cs) c0 (pos + i))
                    (riverCandidates cells seaLevel)).
    { rewrite Hc. apply startCell_In. left. reflexivity. }
    apply riverCandidates_In in Hin as [Hin _]. exact Hin.
  - apply buildHeightMap_lookup in Hrec as (c' & Hin' & Hid' & Hh').
    exists c'. split; [exact Hin' | split; [congruence | lra]].
Qed.

(** C7: every river walk terminates.  From a start cell the [while] loop
    stops within 100 bodies; each body marks the current cell, so a start
    cell above sea level is always marked; a move goes to a different cell
    of the 1-ring whose height is strictly lower, namely the lowest one the
    height map records, and the walk goes on from there with one step
    fewer; only cells above sea level are marked, so a walk stops once
    the current elevation is at or below seaLevel; it stops at a cell
    with no strictly lower neighbour; and a walk that stopped did so at
    the step cap, at a local minimum, or because the lowest neighbour is
    at or below sea level.  The set returned is the union of the cells
    the 50 walks mark, and marking a cell twice changes nothing.  The
    heights the walks compare are the elevations of the input cells, the
    last cell with an id giving its height. *)
Theorem river_walks_terminate (cells : list CellInfo.t) (seaLevel : R)
    (pos : nat) :
  (forall c, ~ In EmptyString (gridDisk1 c)) ->
  let heightMap := buildHeightMap cells in
  (forall (cur : CellInfo.t) (rs : gset string),
      let path := walkPath seaLevel heightMap maxPathLength cur in
      (exists st',
          whileLoop seaLevel heightMap maxPathLength (mkWalk cur 0 rs) = Some st'
          /\ rivers st' = list_to_set (map CellInfo.h3Index path) ∪ rs)
      /\ (length path <= 100)%nat
      /\ descending heightMap path
      /\ (forall c, In c path -> CellInfo.height c > seaLevel)
      /\ (CellInfo.height cur <= seaLevel -> path = [])
      /\ (forall before c after,
            path = before ++ c :: after ->
            localMinimum heightMap c -> after = [])
      /\ (forall before c,
            path = before ++ [c] ->
            length path = 100%nat
            \/ localMinimum heightMap c
            \/ exists n h,
                 lowestNeighbor heightMap c = (Some n, h) /\ h <= seaLevel)
      /\ (CellInfo.height cur > seaLevel ->
          (exists rest, path = cur :: rest)
          /\ forall st',
               whileLoop seaLevel heightMap maxPathLength (mkWalk cur 0 rs)
               = Some st' ->
               CellInfo.h3Index cur ∈ rivers st')
      /\ (forall n h,
            CellInfo.height cur > seaLevel ->
            lowestNeighbor heightMap cur = (Some n, h) ->
            path = cur :: walkPath seaLevel heightMap 99 (CellInfo.mk n 0 0 h))
      /\ (CellInfo.height cur > seaLevel ->
          localMinimum heightMap cur -> path = [cur]))
  /\ (forall x,
        x ∈ simulateRivers cells seaLevel pos
        <-> exists c0 cs i,
              riverCandidates cells seaLevel = c0 :: cs
              /\ (i < 50)%nat
              /\ In x (map CellInfo.h3Index
                         (walkPath seaLevel heightMap maxPathLength
                            (startCell (c0 :: cs) c0 (pos + i)))))
  /\ (forall (x : string) (rs : gset string), x ∈ rs -> {[x]} ∪ rs = rs)
  /\ (maxPathLength = 100%nat /\ numRivers = 50%nat)
  /\ (forall st : WalkState,
        (whileCond seaLevel st = true
         <-> CellInfo.height (current st) > seaLevel
             /\ (pathLength st < 100)%nat)
        /\ rivers (fst (whileBody heightMap st))
           = {[CellInfo.h3Index (current st)]} ∪ rivers st
        /\ CellInfo.h3Index (current st) ∈ rivers (fst (whileBody heightMap st))
        /\ (forall n h,
              lowestNeighbor heightMap (current st) = (Some n, h) ->
              whileBody heightMap st
              = (mkWalk (CellInfo.mk n 0 0 h) (S (pathLength st))
                   ({[CellInfo.h3Index (current st)]} ∪ rivers st), true))
        /\ (fst (lowestNeighbor heightMap (current st)) = None ->
            whileBody heightMap st
            = (mkWalk (current st) (pathLength st)
                 ({[CellInfo.h3Index (current st)]} ∪ rivers st), false)))
  /\ (forall c n h,
        lowestNeighbor heightMap c = (Some n, h) ->
        In n (gridDisk1 (CellInfo.h3Index c))
        /\ n <> CellInfo.h3Index c
        /\ heightMap !! n = Some h
        /\ h < CellInfo.height c
        /\ forall n' h', In n' (gridDisk1 (CellInfo.h3Index c)) ->
             n' <> CellInfo.h3Index c -> heightMap !! n' = Some h' -> h <= h')
  /\ (forall c,
        fst (lowestNeighbor heightMap c) = None <-> localMinimum heightMap c)
  /\ (forall k h,
        heightMap !! k = Some h ->
        exists c, In c cells /\ CellInfo.h3Index c = k /\ CellInfo.height c = h)
  /\ (forall before c after,
        cells = before ++ c :: after ->
        (forall c', In c' after -> CellInfo.h3Index c' <> CellInfo.h3Index c) ->
        heightMap !! CellInfo.h3Index c = Some (CellInfo.height c))
  /\ (List.NoDup (map CellInfo.h3Index cells) ->
      forall c, In c cells ->
        heightMap !! CellInfo.h3Index c = Some (CellInfo.height c)).
Proof.
  intros Hids heightMap.
  assert (Hscan : forall c n h,
            lowestNeighbor heightMap c = (Some n, h) ->
            In n (gridDisk1 (CellInfo.h3Index c))
            /\ n <> CellInfo.h3Index c
            /\ heightMap !! n = Some h
            /\ h < CellInfo.height c
            /\ forall n' h', In n' (gridDisk1 (CellInfo.h3Index c)) ->
                 n' <> CellInfo.h3Index c -> heightMap !! n' = Some h' -> h <= h').
  { intros c n h Hbest.
    pose proof (lowestNeighbor_scanned heightMap c) as [Hsel Hall].
    rewrite Hbest in Hsel, Hall. simpl in Hsel, Hall.
    destruct Hsel as (Hin & Hne & Hlk & Hlt). auto. }
  assert (Hnone : forall c,
            fst (lowestNeighbor heightMap c) = None <-> localMinimum heightMap c).
  { intros c. split.
    - intros Hfst n h Hin Hne Hlk.
      pose proof (lowestNeighbor_scanned heightMap c) as [Hsel Hall].
      rewrite Hfst in Hsel. rewrite <- Hsel. eapply Hall; eassumption.
    - intros Hmin.
      destruct (lowestNeighbor heightMap c) as [[n |] low] eqn:Hbest;
        [| reflexivity].
      destruct (Hscan c n low Hbest) as (Hin & Hne & Hlk & Hlt & _).
      specialize (Hmin n low Hin Hne Hlk). lra. }
  assert (Hname : forall c n h,
            lowestNeighbor heightMap c = (Some n, h) -> n <> EmptyString).
  { intros c n h Hbest ->.
    destruct (Hscan c _ h Hbest) as (Hin & _). exact (Hids _ Hin). }
  split; [| split; [| split; [| split; [| split; [| split; [| split;
    [| split; [| split]]]]]]]].
  - intros cur rs path.
    assert (Hrun : exists st',
              whileLoop seaLevel heightMap maxPathLength (mkWalk cur 0 rs) = Some st'
              /\ rivers st' = list_to_set (map CellInfo.h3Index path) ∪ rs).
    { destruct (whileLoop_descend seaLevel heightMap maxPathLength (mkWalk cur 0 rs))
        as (st' & Hrun & Hrs & _); [simpl; lia | unfold maxPathLength; simpl; lia |].
      exists st'. split; [exact Hrun |].
      rewrite Hrs. cbn [current pathLength rivers].
      rewrite Nat.sub_0_r. apply descend_walkPath. }
    split; [exact Hrun |].
    split; [apply walkPath_length |].
    split; [apply walkPath_descending |].
    split; [intros c; apply walkPath_above_sea |].
    split; [apply walkPath_stop_sea |].
    split; [intros before c after; apply walkPath_stops_at_minimum |].
    split; [intros before c; apply walkPath_last; exact Hids |].
    split; [| split].
    + intros Hgt.
      assert (Hhead : exists rest, path = cur :: rest).
      { destruct (walkPath_head seaLevel heightMap maxPathLength cur)
          as [Hnil | Hcons]; [| exact Hcons].
        pose proof (walkPath_marks_here seaLevel heightMap 99 cur Hgt) as Hin.
        change (S 99) with maxPathLength in Hin. rewrite Hnil in Hin.
        destruct Hin. }
      split; [exact Hhead |].
      intros st' Hst'. destruct Hrun as (st'' & Hrun & Hrs).
      rewrite Hrun in Hst'. injection Hst' as <-. rewrite Hrs.
      destruct Hhead as [rest ->]. simpl.
      apply elem_of_union. left. apply elem_of_union. left.
      apply elem_of_singleton. reflexivity.
    + intros n h Hgt Hbest.
      apply (walkPath_move seaLevel heightMap 99 cur n h Hgt Hbest).
      exact (Hname cur n h Hbest).
    + intros Hgt Hmin.
      apply (walkPath_stop_minimum seaLevel heightMap 99 cur Hgt).
      apply Hnone, Hmin.
  - intros x. apply simulateRivers_elem.
  - intros x rs Hx. apply subseteq_union_1_L, singleton_subseteq_l, Hx.
  - split; reflexivity.
  - intros st.
    assert (Hmove : forall n h,
              lowestNeighbor heightMap (current st) = (Some n, h) ->
              whileBody heightMap st
              = (mkWalk (CellInfo.mk n 0 0 h) (S (pathLength st))
                   ({[CellInfo.h3Index (current st)]} ∪ rivers st), true)).
    { intros n h Hbest. unfold whileBody. rewrite Hbest. simpl.
      destruct (String.eqb_spec n EmptyString) as [Heq | _]; [| reflexivity].
      exfalso. exact (Hname _ n h Hbest Heq). }
    assert (Hstop : fst (lowestNeighbor heightMap (current st)) = None ->
              whileBody heightMap st
              = (mkWalk (current st) (pathLength st)
                   ({[CellInfo.h3Index (current st)]} ∪ rivers st), false)).
    { intros Hfst. unfold whileBody.
      destruct (lowestNeighbor heightMap (current st)) as [best low].
      simpl in Hfst. subst best. reflexivity. }
    assert (Hmark : rivers (fst (whileBody heightMap st))
                    = {[CellInfo.h3Index (current st)]} ∪ rivers st).
    { destruct (lowestNeighbor heightMap (current st)) as [[n |] low].
      - rewrite (Hmove n low eq_refl). reflexivity.
      - rewrite (Hstop eq_refl). reflexivity. }
    split; [| split; [exact Hmark | split; [| split; [exact Hmove | exact Hstop]]]].
    + unfold whileCond. rewrite andb_true_iff, Nat.ltb_lt.
      unfold maxPathLength.
      destruct (Rgt_dec (CellInfo.height (current st)) seaLevel);
        intuition discriminate.
    + rewrite Hmark. apply elem_of_union. left.
      apply elem_of_singleton. reflexivity.
  - exact Hscan.
  - exact Hnone.
  - intros k h. apply buildHeightMap_lookup.
  - intros before c after -> Hlast. apply buildHeightMap_last, Hlast.
  - intros Hnd c Hin. apply buildHeightMap_records; assumption.
Qed.
End RiverFacts.

Section RiverExamples.
Import WorldGenerator.

Lemma twoCells_candidates :
  riverCandidates [TwoCells.a; TwoCells.b] 0.5 = [TwoCells.a; TwoCells.b].
Proof.
  unfold riverCandidates, TwoCells.a, TwoCells.b. simpl.
  destruct (Rgt_dec 1 (0.5 + 0.3)) as [_ | Hn]; [reflexivity | exfalso; lra].
Qed.

(** The first river of the two-cell world starts at a candidate, and
    that cell lies above sea level 0.5. *)
Lemma simulateRivers_above_sea_level_witness :
  exists c, In c [TwoCells.a; TwoCells.b]
            /\ CellInfo.h3Index c
               = CellInfo.h3Index
                   (@startCell TwoCells.process [TwoCells.a; TwoCells.b]
                      TwoCells.a (0 + 0))
            /\ CellInfo.height c > 0.5.
Proof.
  apply (@simulateRivers_above_sea_level TwoCells.grid TwoCells.process
           [TwoCells.a; TwoCells.b] 0.5 0%nat).
  apply @simulateRivers_start_marked with (cs := [TwoCells.b]).
  - apply twoCells_candidates.
  - unfold numRivers. lia.
Defined.

Lemma twoCells_ids (c : string) : ~ In EmptyString (@gridDisk1 TwoCells.grid c).
Proof.
  simpl. destruct (String.eqb c "a"); intros [Hc | [Hc | []]]; discriminate.
Qed.

Lemma slope_heights :
  buildHeightMap Slope.cells !! "a"%string = Some 1
  /\ buildHeightMap Slope.cells !! "b"%string = Some 0.6.
Proof.
  unfold buildHeightMap, Slope.cells, Slope.top, Slope.foot. simpl. split.
  - rewrite lookup_insert_ne by discriminate. apply lookup_insert_eq.
  - apply lookup_insert_eq.
Qed.

(** From [top] the scan selects [foot]; from [foot] it selects nothing. *)
Lemma slope_scan :
  @lowestNeighbor TwoCells.grid (buildHeightMap Slope.cells) Slope.top
  = (Some "b"%string, 0.6)
  /\ fst (@lowestNeighbor TwoCells.grid (buildHeightMap Slope.cells)
            (CellInfo.mk "b" 0 0 0.6)) = None.
Proof.
  destruct slope_heights as [Ha Hb].
  unfold lowestNeighbor, scanStep, Slope.top.
  cbn [CellInfo.h3Index CellInfo.height gridDisk1 TwoCells.grid String.eqb
       Ascii.eqb Bool.eqb fold_left].
  rewrite Ha, Hb. split.
  - destruct (Rlt_dec 0.6 1) as [_ | Hn]; [reflexivity | exfalso; lra].
  - destruct (Rlt_dec 1 0.6) as [Hn | _]; [exfalso; lra | reflexivity].
Qed.

(** On the slope the walk from [top] marks [top], moves to [foot], marks
    it and stops there, at a local minimum above sea level 0.5. *)
Lemma river_walks_terminate_witness :
  let heightMap := buildHeightMap Slope.cells in
  let path := @walkPath TwoCells.grid 0.5 heightMap maxPathLength Slope.top in
  path = [Slope.top; CellInfo.mk "b" 0 0 0.6]
  /\ (exists st',
        @whileLoop TwoCells.grid 0.5 heightMap maxPathLength
          (mkWalk Slope.top 0 ∅) = Some st'
        /\ rivers st' = list_to_set (map CellInfo.h3Index path) ∪ ∅)
  /\ (length path <= 100)%nat.
Proof.
  intros heightMap path.
  destruct (@river_walks_terminate TwoCells.grid TwoCells.process
              Slope.cells 0.5 0%nat twoCells_ids) as [Hwalk _].
  destruct (Hwalk Slope.top ∅) as (Hrun & Hlen & _ & _ & _ & _ & _ & _ & Hmove & _).
  destruct slope_scan as [Htop Hfoot].
  split; [| split; [exact Hrun | exact Hlen]].
  unfold path, heightMap. rewrite (Hmove "b"%string 0.6); [| simpl; lra | exact Htop].
  rewrite (@walkPath_stop_minimum TwoCells.grid 0.5 _ 98);
    [reflexivity | simpl; lra | exact Hfoot].
Defined.
End RiverExamples.

(* ===================================================================== *)
(** * generateWorld: results *)
(* ===================================================================== *)

Section GenerateFacts.
Import WorldGenerator.
Context {grid : H3} {simplex : SimplexNoise} {rng : MathRandom}.

(** ** The seed *)

(** The hash is 32-bit FNV-1a: the value for the default seed, and a seed
    whose running value is negative as a signed 32-bit number. *)
Lemma seedHash_examples :
  JS.toUint32 (seedHash 0x811c9dc5 "world-sim") = 547196657%Z
  /\ seedHash 0x811c9dc5 "test" = (-1345293851)%Z
  /\ JS.toUint32 (seedHash 0x811c9dc5 "test") = 2949673445%Z.
Proof. repeat split; vm_compute; reflexivity. Qed.

Lemma seedFraction_range (seed : string) : 0 <= seedFraction seed < 1.
Proof.
  unfold seedFraction, JS.toUint32.
  pose proof (Z.mod_pos_bound (seedHash 0x811c9dc5 seed) (2 ^ 32) eq_refl) as [Hlo Hhi].
  apply IZR_le in Hlo. apply IZR_lt in Hhi.
  change (IZR (2 ^ 32)) with 4294967296 in Hhi.
  split.
  - apply Rmult_le_pos; [exact Hlo |]. apply Rlt_le, Rinv_0_lt_compat. lra.
  - apply Rmult_lt_reg_r with 4294967296; [lra |].
    unfold Rdiv. rewrite Rmult_assoc, Rinv_l by lra. lra.
Qed.

(** ** Elevation *)

Lemma getNoise_range (this : t) (lat lon : R) :
  (forall x y z, -1 <= noise3D this x y z <= 1) ->
  -1 <= getNoise this lat lon <= 1.
Proof.
  intros Hn. unfold getNoise. cbv zeta.
  set (x := 1 * cos (lat * PI / 180) * cos (lon * PI / 180)).
  set (y := 1 * cos (lat * PI / 180) * sin (lon * PI / 180)).
  set (z := 1 * sin (lat * PI / 180)).
  pose proof (Hn x y z) as H1.
  pose proof (Hn (x * 2) (y * 2) (z * 2)) as H2.
  pose proof (Hn (x * 4) (y * 4) (z * 4)) as H4.
  split; lra.
Qed.

Lemma pixel_range (pixel : Byte.byte) :
  0 <= IZR (Z.of_N (Byte.to_N pixel)) / 255 <= 1.
Proof.
  pose proof (Byte.to_N_bounded pixel) as Hb.
  assert (H0 : (0 <= Z.of_N (Byte.to_N pixel))%Z) by lia.
  assert (H1 : (Z.of_N (Byte.to_N pixel) <= 255)%Z) by lia.
  apply IZR_le in H0, H1. lra.
Qed.

Lemma clamp_range (x : R) : 0 <= Rmin 1 (Rmax 0 x) <= 1.
Proof.
  split; [apply Rmin_glb; [lra | apply Rmax_l] | apply Rmin_l].
Qed.

(** With a noise field in [-1,1], every elevation source stays in [0,1]. *)
Lemma heightAt_range (this : t) (generationMethod : GenerationMethod)
    (tectonicHeights : option (gmap string R)) (h3Index : string) (lat lon : R) :
  (forall x y z, -1 <= noise3D this x y z <= 1) ->
  0 <= heightAt this generationMethod tectonicHeights h3Index lat lon <= 1.
Proof.
  intros Hn. unfold heightAt.
  destruct (heightMapContext this) as [ctx |]; [apply pixel_range |].
  pose proof (getNoise_range this lat lon Hn) as Hg.
  destruct generationMethod, tectonicHeights; try (cbv zeta; lra).
  apply clamp_range.
Qed.

Lemma cellInfo_h3Index (this : t) (generationMethod : GenerationMethod)
    (tectonicHeights : option (gmap string R)) (h3Index : string) :
  CellInfo.h3Index (cellInfo this generationMethod tectonicHeights h3Index)
  = h3Index.
Proof. unfold cellInfo. destruct (cellToLatLng h3Index). reflexivity. Qed.

Lemma cellInfo_height_range (this : t) (generationMethod : GenerationMethod)
    (tectonicHeights : option (gmap string R)) (h3Index : string) :
  (forall x y z, -1 <= noise3D this x y z <= 1) ->
  0 <= CellInfo.height (cellInfo this generationMethod tectonicHeights h3Index) <= 1.
Proof.
  intros Hn. unfold cellInfo. destruct (cellToLatLng h3Index) as [lat lon].
  simpl. apply heightAt_range, Hn.
Qed.

(** ** When the call returns *)

Lemma tectonicState_returns (generationMethod : GenerationMethod)
    (allCells : list string) (pos : nat) :
  allCells <> [] \/ generationMethod = noise ->
  exists tectonicHeights pos',
    tectonicState generationMethod allCells pos = Some (tectonicHeights, pos').
Proof.
  intros Hok. destruct generationMethod; simpl; [eauto |].
  destruct Hok as [Hne | Hm]; [| discriminate].
  unfold generateTectonicPlates.
  destruct allCells as [| c0 cs]; [contradiction | eauto].
Qed.

Lemma generateWorld_returns (this : t) (resolution : nat)
    (seaLevel sunlight axialTilt rotationSpeed rotationPeriod orbitalPeriod : R)
    (generationMethod : GenerationMethod) (pos : nat) :
  expandCells resolution <> [] \/ generationMethod = noise ->
  exists tectonicHeights pos',
    tectonicState generationMethod (expandCells resolution) pos
    = Some (tectonicHeights, pos')
    /\ let cellInfos :=
         map (cellInfo this generationMethod tectonicHeights)
           (expandCells resolution) in
       generateWorld this resolution seaLevel sunlight axialTilt rotationSpeed
         rotationPeriod orbitalPeriod generationMethod pos
       = Some (map (cellData (simulateRivers cellInfos seaLevel pos')
                      seaLevel sunlight axialTilt rotationSpeed
                      rotationPeriod orbitalPeriod) cellInfos).
Proof.
  intros Hok.
  destruct (tectonicState_returns generationMethod (expandCells resolution) pos Hok)
    as (heights & pos' & Hstate).
  exists heights, pos'. split; [exact Hstate |].
  unfold generateWorld, generateWorldFrom, simulateRivers. cbv zeta.
  rewrite Hstate.
  destruct (simulateRiversFrom _ seaLevel pos') as [rs pos'']. reflexivity.
Qed.

(** No branch of [generateWorld] throws: the call returns for every
    grid, also an empty one. *)
Lemma generateWorld_total (this : t) (resolution : nat)
    (seaLevel sunlight axialTilt rotationSpeed rotationPeriod orbitalPeriod : R)
    (generationMethod : GenerationMethod) (pos : nat) :
  exists tectonicHeights pos',
    let cellInfos :=
      map (cellInfo this generationMethod tectonicHeights)
        (expandCells resolution) in
    generateWorld this resolution seaLevel sunlight axialTilt rotationSpeed
      rotationPeriod orbitalPeriod generationMethod pos
    = Some (map (cellData (simulateRivers cellInfos seaLevel pos')
                   seaLevel sunlight axialTilt rotationSpeed
                   rotationPeriod orbitalPeriod) cellInfos).
Proof.
  assert (Hstate : exists tectonicHeights pos',
            tectonicState generationMethod (expandCells resolution) pos
            = Some (tectonicHeights, pos')).
  { destruct generationMethod; simpl; [eauto |].
    unfold generateTectonicPlates.
    destruct (expandCells resolution); eauto. }
  destruct Hstate as (heights & pos' & Hstate).
  exists heights, pos'.
  unfold generateWorld, generateWorldFrom, simulateRivers. cbv zeta.
  rewrite Hstate.
  destruct (simulateRiversFrom _ seaLevel pos') as [rs pos'']. reflexivity.
Qed.

(** Under the noise method no plate is drawn: the call cannot throw. *)
Lemma generateWorld_noise (this : t) (resolution : nat)
    (seaLevel sunlight axialTilt rotationSpeed rotationPeriod orbitalPeriod : R)
    (pos : nat) :
  let cellInfos := map (cellInfo this noise None) (expandCells resolution) in
  generateWorldFrom this resolution seaLevel sunlight axialTilt rotationSpeed
    rotationPeriod orbitalPeriod noise pos
  = Some (map (cellData (simulateRivers cellInfos seaLevel pos)
                 seaLevel sunlight axialTilt rotationSpeed
                 rotationPeriod orbitalPeriod) cellInfos,
          snd (simulateRiversFrom cellInfos seaLevel pos)).
Proof.
  unfold generateWorldFrom, simulateRivers. cbv zeta. simpl.
  destruct (simulateRiversFrom _ seaLevel pos) as [rs pos']. reflexivity.
Qed.

(** ** The records *)

Lemma cellData_isRiver (rs : gset string)
    (seaLevel sunlight axialTilt rotationSpeed rotationPeriod orbitalPeriod : R)
    (info : CellInfo.t) :
  CellData.isRiver (cellData rs seaLevel sunlight axialTilt rotationSpeed
                      rotationPeriod orbitalPeriod info) = true
  <-> CellInfo.h3Index info ∈ rs.
Proof. simpl. apply bool_decide_eq_true. Qed.

Lemma cellData_biome_RIVER (rs : gset string)
    (seaLevel sunlight axialTilt rotationSpeed rotationPeriod orbitalPeriod : R)
    (info : CellInfo.t) :
  CellData.biome (cellData rs seaLevel sunlight axialTilt rotationSpeed
                    rotationPeriod orbitalPeriod info) = RIVER
  <-> CellInfo.h3Index info ∈ rs /\ CellInfo.height info > seaLevel.
Proof.
  simpl. destruct (bool_decide_reflect (CellInfo.h3Index info ∈ rs)) as [Hin | Hout];
    destruct (Rgt_dec (CellInfo.height info) seaLevel) as [Hgt | Hle]; simpl.
  - split; auto.
  - split; [intros Hb | intros [_ Hgt]; contradiction].
    exfalso. eapply determineBiome_not_RIVER, Hb.
  - split; [intros Hb | intros [Hin _]; contradiction].
    exfalso. eapply determineBiome_not_RIVER, Hb.
  - split; [intros Hb | intros [Hin _]; contradiction].
    exfalso. eapply determineBiome_not_RIVER, Hb.
Qed.

Lemma cellData_biome_ocean (rs : gset string)
    (seaLevel sunlight axialTilt rotationSpeed rotationPeriod orbitalPeriod : R)
    (info : CellInfo.t) :
  CellInfo.height info <= seaLevel ->
  CellData.biome (cellData rs seaLevel sunlight axialTilt rotationSpeed
                    rotationPeriod orbitalPeriod info) = OCEAN.
Proof.
  intros Hle. simpl.
  destruct (Rgt_dec (CellInfo.height info) seaLevel) as [Hgt | _]; [lra |].
  rewrite andb_false_r. apply determineBiome_ocean, Hle.
Qed.

(** The moisture a record holds: the clamped value, plus 0.3 for a river
    cell. *)
Lemma cellData_moisture (rs : gset string)
    (seaLevel sunlight axialTilt rotationSpeed rotationPeriod orbitalPeriod : R)
    (info : CellInfo.t) :
  let r := cellData rs seaLevel sunlight axialTilt rotationSpeed
             rotationPeriod orbitalPeriod info in
  CellData.moisture r
  = ClimateSystem.calculateMoisture (CellInfo.lat info) (CellInfo.height info)
      seaLevel rotationSpeed
    + (if CellData.isRiver r then 0.3 else 0)
  /\ 0 <= CellData.moisture r <= 1.3
  /\ (CellData.isRiver r = false -> CellData.moisture r <= 1).
Proof.
  cbv zeta. simpl.
  pose proof (calculateMoisture_range (CellInfo.lat info) (CellInfo.height info)
                seaLevel rotationSpeed) as Hm.
  destruct (bool_decide (CellInfo.h3Index info ∈ rs)).
  - repeat split; first [lra | intros Hf; discriminate Hf].
  - repeat split; first [lra | intros _; lra].
Qed.

(** C4: in the output a cell has biome RIVER exactly when its id is in
    the river set and its elevation is strictly above seaLevel; the
    [isRiver] flag is membership in that set, so a cell outside it is
    never RIVER. *)
Theorem generateWorld_river_biome (this : t) (resolution : nat)
    (seaLevel sunlight axialTilt rotationSpeed rotationPeriod orbitalPeriod : R)
    (generationMethod : GenerationMethod) (pos : nat) :
  expandCells resolution <> [] \/ generationMethod = noise ->
  exists tectonicHeights pos' out,
    tectonicState generationMethod (expandCells resolution) pos
    = Some (tectonicHeights, pos')
    /\ generateWorld this resolution seaLevel sunlight axialTilt rotationSpeed
         rotationPeriod orbitalPeriod generationMethod pos = Some out
    /\ let riverSet :=
         simulateRivers
           (map (cellInfo this generationMethod tectonicHeights)
              (expandCells resolution)) seaLevel pos' in
       Forall (fun r =>
                 (CellData.isRiver r = true <-> CellData.h3Index r ∈ riverSet)
                 /\ (CellData.biome r = RIVER
                     <-> CellData.h3Index r ∈ riverSet
                         /\ CellData.height r > seaLevel)) out.
Proof.
  intros Hok.
  destruct (generateWorld_returns this resolution seaLevel sunlight axialTilt
              rotationSpeed rotationPeriod orbitalPeriod generationMethod pos Hok)
    as (heights & pos' & Hstate & Hrun).
  exists heights, pos'. eexists. split; [exact Hstate | split; [exact Hrun |]].
  cbv zeta. apply List.Forall_forall. intros r Hr.
  apply in_map_iff in Hr as (info & <- & _). split.
  - apply cellData_isRiver.
  - apply cellData_biome_RIVER.
Qed.

(** The ids of the output are the expanded cells, in order. *)
Lemma generateWorld_ids (this : t) (resolution : nat)
    (seaLevel sunlight axialTilt rotationSpeed rotationPeriod orbitalPeriod : R)
    (generationMethod : GenerationMethod) (pos : nat) (out : list CellData.t) :
  generateWorld this resolution seaLevel sunlight axialTilt rotationSpeed
    rotationPeriod orbitalPeriod generationMethod pos = Some out ->
  map CellData.h3Index out = expandCells resolution.
Proof.
  destruct (generateWorld_total this resolution seaLevel sunlight axialTilt
              rotationSpeed rotationPeriod orbitalPeriod generationMethod pos)
    as (heights & pos' & Hrun).
  cbv zeta in Hrun. rewrite Hrun. intros [= <-].
  rewrite !map_map. simpl.
  rewrite (map_ext _ (fun x => x)); [apply map_id |].
  intros x. apply cellInfo_h3Index.
Qed.

(** C5: the array [generateWorld] returns has the length of the grid's
    base cells expanded to the resolution: at resolution 0 its ids are
    the base cells themselves, unchanged; at any other resolution they
    are the children at that resolution of every base cell, base cell
    after base cell, so the length is the sum of the numbers of children.
    Any other call at the same resolution, whatever its generator (seed,
    height map), its climate parameters, its method and the state of
    [Math.random], returns the same ids and so the same length. *)
Theorem generateWorld_length (this : t) (resolution : nat)
    (seaLevel sunlight axialTilt rotationSpeed rotationPeriod orbitalPeriod : R)
    (generationMethod : GenerationMethod) (pos : nat) :
  expandCells 0 = getRes0Cells
  /\ exists out,
       generateWorld this resolution seaLevel sunlight axialTilt rotationSpeed
         rotationPeriod orbitalPeriod generationMethod pos = Some out
       /\ length out = length (expandCells resolution)
       /\ map CellData.h3Index out = expandCells resolution
       /\ match resolution with
          | O =>
              map CellData.h3Index out = getRes0Cells
              /\ length out = length getRes0Cells
          | S _ =>
              map CellData.h3Index out
              = flat_map (fun c => cellToChildren c resolution) getRes0Cells
              /\ length out
                 = list_sum
                     (map (fun c => length (cellToChildren c resolution))
                        getRes0Cells)
          end
       /\ forall (this' : t)
            (seaLevel' sunlight' axialTilt' rotationSpeed' rotationPeriod'
               orbitalPeriod' : R)
            (generationMethod' : GenerationMethod) (pos' : nat),
          exists out',
            generateWorld this' resolution seaLevel' sunlight' axialTilt'
              rotationSpeed' rotationPeriod' orbitalPeriod' generationMethod'
              pos' = Some out'
            /\ map CellData.h3Index out' = map CellData.h3Index out
            /\ length out' = length out.
Proof.
  split; [reflexivity |].
  destruct (generateWorld_total this resolution seaLevel sunlight axialTilt
              rotationSpeed rotationPeriod orbitalPeriod generationMethod pos)
    as (heights & pos' & Hrun).
  cbv zeta in Hrun. eexists. split; [exact Hrun |].
  pose proof (generateWorld_ids _ _ _ _ _ _ _ _ _ _ _ Hrun) as Hids.
  split; [rewrite !length_map; reflexivity |].
  split; [exact Hids |].
  split.
  - rewrite Hids, !length_map.
    destruct resolution as [| r]; cbn [expandCells].
    + split; reflexivity.
    + split; [reflexivity | apply length_flat_map].
  - intros this' seaLevel' sunlight' axialTilt' rotationSpeed' rotationPeriod'
      orbitalPeriod' generationMethod' pos''.
    destruct (generateWorld_total this' resolution seaLevel' sunlight' axialTilt'
                rotationSpeed' rotationPeriod' orbitalPeriod' generationMethod'
                pos'') as (heights' & pos3 & Hrun').
    cbv zeta in Hrun'. eexists. split; [exact Hrun' |].
    pose proof (generateWorld_ids _ _ _ _ _ _ _ _ _ _ _ Hrun') as Hids'.
    split; [rewrite Hids', Hids; reflexivity |].
    rewrite !length_map. reflexivity.
Qed.

(** C9: with seaLevel = 1 every cell of the output is OCEAN, for every
    generator whose noise field stays in [-1,1] (whatever its seed and
    its height map), every resolution and every method: no elevation
    exceeds 1, so no land row of the table and no RIVER override
    applies. *)
Theorem generateWorld_all_ocean (this : t) (resolution : nat)
    (sunlight axialTilt rotationSpeed rotationPeriod orbitalPeriod : R)
    (generationMethod : GenerationMethod) (pos : nat) :
  (forall x y z, -1 <= noise3D this x y z <= 1) ->
  expandCells resolution <> [] \/ generationMethod = noise ->
  exists out,
    generateWorld this resolution 1 sunlight axialTilt rotationSpeed
      rotationPeriod orbitalPeriod generationMethod pos = Some out
    /\ Forall (fun r => CellData.biome r = OCEAN) out.
Proof.
  intros Hn Hok.
  destruct (generateWorld_returns this resolution 1 sunlight axialTilt
              rotationSpeed rotationPeriod orbitalPeriod generationMethod pos Hok)
    as (heights & pos' & _ & Hrun).
  eexists. split; [exact Hrun |]. cbv zeta.
  apply List.Forall_forall. intros r Hr.
  apply in_map_iff in Hr as (info & <- & Hinfo).
  apply in_map_iff in Hinfo as (x & <- & _).
  apply cellData_biome_ocean, cellInfo_height_range, Hn.
Qed.
End GenerateFacts.

(* ===================================================================== *)
(** * What a call owes to Math.random *)
(* ===================================================================== *)

Section RandomDraws.
Import WorldGenerator.
Context {grid : H3} {simplex : SimplexNoise}.
Variables rng1 rng2 : MathRandom.

(** Under the noise method two calls agree on the order of the cells and on
    every field computed before the river pass, whatever [Math.random]
    returns; they agree on everything when there is no river candidate.
    Only the river set, and with it [isRiver], [moisture] and [biome],
    follows the draws. *)
Lemma generateWorld_noise_fixed_fields (this : t) (resolution : nat)
    (seaLevel sunlight axialTilt rotationSpeed rotationPeriod orbitalPeriod : R)
    (pos1 pos2 : nat) :
  exists out1 out2,
    @generateWorld grid rng1 this resolution seaLevel sunlight axialTilt
      rotationSpeed rotationPeriod orbitalPeriod noise pos1 = Some out1
    /\ @generateWorld grid rng2 this resolution seaLevel sunlight axialTilt
         rotationSpeed rotationPeriod orbitalPeriod noise pos2 = Some out2
    /\ map CellData.h3Index out1 = map CellData.h3Index out2
    /\ map CellData.lat out1 = map CellData.lat out2
    /\ map CellData.lon out1 = map CellData.lon out2
    /\ map CellData.height out1 = map CellData.height out2
    /\ map CellData.temperature out1 = map CellData.temperature out2
    /\ (riverCandidates
          (map (cellInfo this noise None) (expandCells resolution)) seaLevel = [] ->
        out1 = out2).
Proof.
  unfold generateWorld.
  rewrite (@generateWorld_noise grid rng1), (@generateWorld_noise grid rng2).
  cbv zeta. eexists. eexists. split; [reflexivity | split; [reflexivity |]].
  cbn [fst]. rewrite !map_map. do 5 (split; [reflexivity |]).
  intros Hnone. unfold simulateRivers.
  rewrite (@simulateRivers_no_candidates grid rng1 _ _ pos1 Hnone).
  rewrite (@simulateRivers_no_candidates grid rng2 _ _ pos2 Hnone).
  reflexivity.
Qed.
End RandomDraws.

(* ===================================================================== *)
(** * The two-cell world, run *)
(* ===================================================================== *)

Section TwoCellsFacts.
Import WorldGenerator RiverSpec.

#[local] Existing Instance TwoCells.grid.
#[local] Existing Instance TwoCells.flat.
#[local] Existing Instance TwoCells.process.

Lemma twoCells_cellInfos :
  map (cellInfo TwoCells.generator noise None) (expandCells 0)
  = [TwoCells.a; TwoCells.b].
Proof.
  unfold expandCells, cellInfo, heightAt, TwoCells.a, TwoCells.b. simpl.
  assert (Hwhite : 255 / 255 = 1) by lra.
  rewrite Hwhite. reflexivity.
Qed.

Lemma randomIndex_zero (n : nat) : JS.randomIndex TwoCells.zero n = 0%nat.
Proof.
  unfold JS.randomIndex, JS.floor. simpl JS.draw.
  rewrite Rmult_0_l. change 0 with (INR 0). rewrite Int_part_INR. reflexivity.
Qed.

Lemma randomIndex_half : JS.randomIndex TwoCells.half 2 = 1%nat.
Proof.
  unfold JS.randomIndex, JS.floor. simpl JS.draw.
  replace (0.5 * INR 2) with (INR 1) by (simpl; lra).
  rewrite Int_part_INR. reflexivity.
Qed.

Lemma twoCells_start_early (i : nat) :
  (i < 50)%nat ->
  startCell [TwoCells.a; TwoCells.b] TwoCells.a i = TwoCells.a.
Proof.
  intros Hi. unfold startCell. simpl random.
  destruct (Nat.ltb_spec i 50) as [_ | Hge]; [| lia].
  rewrite randomIndex_zero. reflexivity.
Qed.

Lemma twoCells_start_late (i : nat) :
  (50 <= i)%nat ->
  startCell [TwoCells.a; TwoCells.b] TwoCells.a i = TwoCells.b.
Proof.
  intros Hi. unfold startCell. simpl random.
  destruct (Nat.ltb_spec i 50) as [Hlt | _]; [lia |].
  simpl length. rewrite randomIndex_half. reflexivity.
Qed.

(** Both cells lie at elevation 1, so no walk ever moves. *)
Lemma twoCells_no_move (c : CellInfo.t) :
  CellInfo.height c = 1 ->
  walkPath 0.5 (buildHeightMap [TwoCells.a; TwoCells.b]) maxPathLength c = [c].
Proof.
  intros Hc. apply walkPath_stop_minimum; [lra |].
  pose proof (lowestNeighbor_scanned (buildHeightMap [TwoCells.a; TwoCells.b]) c)
    as [Hbest _].
  destruct (lowestNeighbor _ c) as [[n |] low]; [| reflexivity].
  exfalso. simpl in Hbest. destruct Hbest as (_ & _ & Hlk & Hlt).
  apply buildHeightMap_lookup in Hlk as (c' & Hin & _ & Hh).
  destruct Hin as [<- | [<- | []]]; simpl in Hh; lra.
Qed.

Lemma twoCells_rivers (pos : nat) (c : CellInfo.t) :
  In c [TwoCells.a; TwoCells.b] ->
  (forall i, (i < 50)%nat ->
     startCell [TwoCells.a; TwoCells.b] TwoCells.a (pos + i) = c) ->
  simulateRivers [TwoCells.a; TwoCells.b] 0.5 pos = {[CellInfo.h3Index c]}.
Proof.
  intros Hc Hstart. apply set_eq. intros x.
  rewrite simulateRivers_elem, elem_of_singleton, twoCells_candidates.
  assert (Hpath : walkPath 0.5 (buildHeightMap [TwoCells.a; TwoCells.b])
                    maxPathLength c = [c]).
  { apply twoCells_no_move. destruct Hc as [<- | [<- | []]]; reflexivity. }
  split.
  - intros (c0 & cs & i & Heq & Hi & Hin). injection Heq as <- <-.
    rewrite (Hstart i Hi), Hpath in Hin.
    destruct Hin as [<- | []]. reflexivity.
  - intros ->. exists TwoCells.a, [TwoCells.b], 0%nat.
    split; [reflexivity | split; [unfold numRivers; lia |]].
    rewrite (Hstart 0%nat) by lia. rewrite Hpath. left. reflexivity.
Qed.

Lemma twoCells_rivers_first :
  simulateRivers [TwoCells.a; TwoCells.b] 0.5 0 = {["a"%string]}.
Proof.
  apply (twoCells_rivers 0 TwoCells.a); [left; reflexivity |].
  intros i Hi. apply twoCells_start_early. lia.
Qed.

Lemma twoCells_rivers_second :
  simulateRivers [TwoCells.a; TwoCells.b] 0.5 50 = {["b"%string]}.
Proof.
  apply (twoCells_rivers 50 TwoCells.b); [right; left; reflexivity |].
  intros i Hi. apply twoCells_start_late. lia.
Qed.

Lemma moisture_equator_peak :
  ClimateSystem.calculateMoisture 0 1 0.5 1 = 1.
Proof.
  unfold ClimateSystem.calculateMoisture. cbv zeta.
  rewrite Rabs_R0, sqrt_1.
  replace (0 / (30 / 1) * PI) with 0 by (unfold Rdiv; ring).
  rewrite cos_0.
  destruct (Rgt_dec 1 0.5) as [_ | Hn]; [| exfalso; lra].
  rewrite Rmax_right by lra. rewrite Rmin_left by lra. reflexivity.
Qed.
Lemma twoCells_position (pos : nat) :
  snd (simulateRiversFrom [TwoCells.a; TwoCells.b] 0.5 pos) = (pos + 50)%nat.
Proof.
  unfold simulateRiversFrom. rewrite twoCells_candidates.
  apply riverLoop_position. discriminate.
Qed.

Lemma twoCells_call (pos : nat) :
  generateWorldFrom TwoCells.generator 0 0.5 1 23.5 1 1 365 noise pos
  = Some (map (cellData (simulateRivers [TwoCells.a; TwoCells.b] 0.5 pos)
                 0.5 1 23.5 1 1 365) [TwoCells.a; TwoCells.b],
          (pos + 50)%nat).
Proof.
  rewrite generateWorld_noise. cbv zeta.
  rewrite twoCells_cellInfos, twoCells_position. reflexivity.
Qed.

(** C1, at the two-cell world with a white height map, seaLevel 0.5 and
    rotationSpeed 1: cell [a] is a river cell; its moisture is clamped to
    1 by [calculateMoisture] and then raised by 0.3, so the record holds
    1.3. *)
Theorem generateWorld_river_moisture_exceeds_one :
  exists out r,
    generateWorld TwoCells.generator 0 0.5 1 23.5 1 1 365 noise 0 = Some out
    /\ In r out
    /\ CellData.h3Index r = "a"%string
    /\ CellData.isRiver r = true
    /\ 0 <= CellData.height r <= 1
    /\ CellData.moisture r = 1 + 0.3
    /\ ~ CellData.moisture r <= 1.
Proof.
  unfold generateWorld. rewrite twoCells_call, twoCells_rivers_first.
  eexists. eexists. split; [reflexivity |].
  split; [left; reflexivity |].
  assert (Hin : bool_decide ("a"%string ∈ ({["a"%string]} : gset string)) = true).
  { apply bool_decide_eq_true. apply elem_of_singleton. reflexivity. }
  cbn [cellData CellData.h3Index CellData.isRiver CellData.moisture
       CellData.height TwoCells.a CellInfo.h3Index CellInfo.lat
       CellInfo.height].
  rewrite Hin, moisture_equator_peak.
  repeat split; lra.
Qed.

(** C2, at the same world: the generator, its seed and every parameter
    are the same for two calls in a row; the first reads the draws 0..49
    of [Math.random] and the second the draws 50..99, and the records
    they return differ. *)
Theorem generateWorld_depends_on_Math_random :
  exists out1 out2,
    generateWorldFrom TwoCells.generator 0 0.5 1 23.5 1 1 365 noise 0
    = Some (out1, 50%nat)
    /\ generateWorldFrom TwoCells.generator 0 0.5 1 23.5 1 1 365 noise 50
       = Some (out2, 100%nat)
    /\ generateWorld TwoCells.generator 0 0.5 1 23.5 1 1 365 noise 0 = Some out1
    /\ generateWorld TwoCells.generator 0 0.5 1 23.5 1 1 365 noise 50 = Some out2
    /\ map CellData.isRiver out1 = [true; false]
    /\ map CellData.isRiver out2 = [false; true]
    /\ out1 <> out2.
Proof.
  unfold generateWorld. rewrite !twoCells_call.
  rewrite twoCells_rivers_first, twoCells_rivers_second.
  eexists. eexists. split; [reflexivity |]. split; [reflexivity |].
  split; [reflexivity |]. split; [reflexivity |].
  assert (Hflags :
    map CellData.isRiver
      (map (cellData {["a"%string]} 0.5 1 23.5 1 1 365) [TwoCells.a; TwoCells.b])
    = [true; false]
    /\ map CellData.isRiver
         (map (cellData {["b"%string]} 0.5 1 23.5 1 1 365) [TwoCells.a; TwoCells.b])
       = [false; true]).
  { split; reflexivity. }
  destruct Hflags as [H1 H2].
  split; [exact H1 | split; [exact H2 |]].
  intros Heq. rewrite Heq, H2 in H1. discriminate.
Qed.
End TwoCellsFacts.

(* ===================================================================== *)
(** * The theorems at the two-cell world *)
(* ===================================================================== *)

Section TwoCellsInstances.
Import WorldGenerator.

#[local] Existing Instance TwoCells.grid.
#[local] Existing Instance TwoCells.flat.
#[local] Existing Instance TwoCells.process.

(** A world lying wholly at or below 0.5 has no river at sea level 0.9. *)
Lemma simulateRivers_candidates_witness :
  riverCandidates [CellInfo.mk "a" 0 0 0.5; CellInfo.mk "b" 0 90 0.25] 0.9 = []
  /\ simulateRivers [CellInfo.mk "a" 0 0 0.5; CellInfo.mk "b" 0 90 0.25] 0.9 0 = ∅.
Proof.
  destruct (simulateRivers_candidates
              [CellInfo.mk "a" 0 0 0.5; CellInfo.mk "b" 0 90 0.25] 0.9 0%nat)
    as (_ & _ & Hlow).
  apply Hlow. intros c [<- | [<- | []]]; simpl; lra.
Defined.

Lemma generateWorld_river_biome_witness :
  exists tectonicHeights pos' out,
    tectonicState noise (expandCells 0) 0 = Some (tectonicHeights, pos')
    /\ generateWorld TwoCells.generator 0 0.5 1 23.5 1 1 365 noise 0 = Some out
    /\ let riverSet :=
         simulateRivers
           (map (cellInfo TwoCells.generator noise tectonicHeights)
              (expandCells 0)) 0.5 pos' in
       Forall (fun r =>
                 (CellData.isRiver r = true <-> CellData.h3Index r ∈ riverSet)
                 /\ (CellData.biome r = RIVER
                     <-> CellData.h3Index r ∈ riverSet
                         /\ CellData.height r > 0.5)) out.
Proof.
  apply (generateWorld_river_biome TwoCells.generator 0 0.5 1 23.5 1 1 365
           noise 0%nat).
  right. reflexivity.
Defined.

Lemma generateWorld_length_witness :
  exists out,
    generateWorld TwoCells.plain 1 0.5 1 23.5 1 1 365 tectonic 0 = Some out
    /\ map CellData.h3Index out = ["a0"; "a1"; "b0"; "b1"]%string
    /\ length out = 4%nat.
Proof.
  destruct (generateWorld_length TwoCells.plain 1 0.5 1 23.5 1 1 365 tectonic 0%nat)
    as (_ & out & Hrun & _ & _ & (Hids & Hlen) & _).
  exists out. split; [exact Hrun | split; [exact Hids | exact Hlen]].
Defined.

Lemma generateWorld_all_ocean_witness :
  exists out,
    generateWorld TwoCells.plain 0 1 1 23.5 1 1 365 tectonic 0 = Some out
    /\ Forall (fun r => CellData.biome r = OCEAN) out.
Proof.
  apply (generateWorld_all_ocean TwoCells.plain 0 1 23.5 1 1 365 tectonic 0%nat).
  - intros x y z. simpl. lra.
  - left. simpl. discriminate.
Defined.
End TwoCellsInstances.

(* ===================================================================== *)
(** * ClimateSystem: further results *)
(* ===================================================================== *)

Section ClimateBounds.
Import ClimateSystem.

Lemma deg_neg (x : R) : - x * PI / 180 = - (x * PI / 180).
Proof. lra. Qed.

(** The lapse rate: temperature never rises with height, is the base
    temperature -20 + 50 * insolation at or below sea level, and falls
    strictly with height above it. *)
Theorem calculateTemperature_lapse (insolation h h' seaLevel : R) :
  h <= h' ->
  calculateTemperature insolation h' seaLevel
    <= calculateTemperature insolation h seaLevel
    <= -20 + insolation * 50
  /\ (h' <= seaLevel ->
      calculateTemperature insolation h' seaLevel = -20 + insolation * 50)
  /\ (seaLevel <= h -> h < h' ->
      calculateTemperature insolation h' seaLevel
      < calculateTemperature insolation h seaLevel)
  /\ calculateTemperature insolation h seaLevel
     = -20 + insolation * 50 - Rmax 0 (h - seaLevel) * 80.
Proof.
  intros Hh. unfold calculateTemperature. cbv zeta.
  destruct (Rgt_dec h seaLevel) as [Hg | Hg];
    destruct (Rgt_dec h' seaLevel) as [Hg' | Hg'];
    (repeat split; try intros; try lra);
    first [rewrite Rmax_right by lra | rewrite Rmax_left by lra]; lra.
Qed.

Lemma calculateTemperature_lapse_witness :
  calculateTemperature 1 0.75 0.5 <= calculateTemperature 1 0.5 0.5 <= -20 + 1 * 50
  /\ calculateTemperature 1 0.75 0.5 < calculateTemperature 1 0.5 0.5.
Proof.
  destruct (calculateTemperature_lapse 1 0.5 0.75 0.5) as (Hle & _ & Hlt & _);
    [lra |].
  split; [exact Hle | apply Hlt; lra].
Defined.

Lemma calculateMoisture_lower (lat height seaLevel rotationSpeed : R) :
  0.1 <= calculateMoisture lat height seaLevel rotationSpeed <= 1.
Proof.
  split; [| apply calculateMoisture_range].
  unfold calculateMoisture. cbv zeta.
  set (phase := Rabs lat / (30 / sqrt rotationSpeed) * PI).
  pose proof (COS_bound phase) as [Hlo Hhi].
  destruct (Rgt_dec height seaLevel) as [Hg | Hg];
    rewrite Rmax_right by lra; apply Rmin_glb; lra.
Qed.

(** For a rotation speed that is not negative the moisture model never
    needs its lower clamp: the result is at least 0.1 (and at most 1), and
    at most 0.9 at or below sea level. *)
Theorem calculateMoisture_floor (lat height seaLevel rotationSpeed : R) :
  0 <= rotationSpeed ->
  0.1 <= calculateMoisture lat height seaLevel rotationSpeed <= 1
  /\ (height <= seaLevel ->
      calculateMoisture lat height seaLevel rotationSpeed <= 0.9).
Proof.
  intros _. unfold calculateMoisture. cbv zeta.
  set (phase := Rabs lat / (30 / sqrt rotationSpeed) * PI).
  pose proof (COS_bound phase) as [Hlo Hhi].
  destruct (Rgt_dec height seaLevel) as [Hg | Hg].
  - split; [| intros Hle; lra].
    rewrite Rmax_right by lra. split.
    + apply Rmin_glb; lra.
    + apply Rmin_l.
  - rewrite Rmax_right by lra. rewrite Rmin_right by lra.
    split; [lra | intros _; lra].
Qed.

Lemma calculateMoisture_floor_witness :
  0.1 <= calculateMoisture 45 0.25 0.5 1 <= 0.9.
Proof.
  destruct (calculateMoisture_floor 45 0.25 0.5 1) as [[Hlo _] Hsea]; [lra |].
  split; [exact Hlo | apply Hsea; lra].
Defined.

(** With a non-negative sunlight the insolation lies between 0 and
    [sunlight]: always under tidal locking, and for a latitude in
    [-90, 90] otherwise. *)
Theorem calculateInsolation_range
    (lat lon tilt sunlight rotationPeriod orbitalPeriod : R) :
  0 <= sunlight ->
  Rabs (rotationPeriod - orbitalPeriod) < 0.1 \/ -90 <= lat <= 90 ->
  0 <= calculateInsolation lat lon tilt sunlight rotationPeriod orbitalPeriod
    <= sunlight.
Proof.
  intros Hs Hcase.
  pose proof (COS_bound (lat * PI / 180)) as [Hlat0 Hlat1].
  pose proof (COS_bound (lon * PI / 180)) as [Hlon0 Hlon1].
  destruct (Rlt_dec (Rabs (rotationPeriod - orbitalPeriod)) 0.1) as [Hlock | Hfree].
  - rewrite insolation_locked by exact Hlock.
    set (a := cos (lat * PI / 180)) in *. set (b := cos (lon * PI / 180)) in *.
    assert (Hab : a * b <= 1) by nra.
    destruct (Rle_dec 0 (a * b)) as [Hpos | Hneg].
    + rewrite Rmax_right by exact Hpos. nra.
    + rewrite Rmax_left by lra. lra.
  - destruct Hcase as [Hlock | Hlat]; [contradiction |].
    rewrite insolation_unlocked by exact Hfree.
    pose proof (cos_latitude_nonneg lat Hlat) as Hc. nra.
Qed.

Lemma calculateInsolation_range_witness :
  0 <= calculateInsolation 45 30 23.5 1 1 365 <= 1.
Proof.
  apply calculateInsolation_range; [lra | right; lra].
Defined.

(** The climate is the same north and south of the equator, and the
    insolation the same east and west of the prime meridian. *)
Theorem climate_symmetry
    (lat lon tilt sunlight rotationPeriod orbitalPeriod height seaLevel rotationSpeed : R) :
  calculateInsolation (- lat) lon tilt sunlight rotationPeriod orbitalPeriod
  = calculateInsolation lat lon tilt sunlight rotationPeriod orbitalPeriod
  /\ calculateInsolation lat (- lon) tilt sunlight rotationPeriod orbitalPeriod
     = calculateInsolation lat lon tilt sunlight rotationPeriod orbitalPeriod
  /\ calculateMoisture (- lat) height seaLevel rotationSpeed
     = calculateMoisture lat height seaLevel rotationSpeed.
Proof.
  unfold calculateInsolation, calculateMoisture. cbv zeta.
  rewrite !deg_neg, !cos_neg, Rabs_Ropp. auto.
Qed.

(** Without light a land cell is ICE: the base temperature is -20. *)
Lemma dark_land_is_ice (insolation moisture height seaLevel : R) :
  insolation <= 0.3 -> height > seaLevel ->
  determineBiome (calculateTemperature insolation height seaLevel)
    moisture height seaLevel = ICE.
Proof.
  intros Hi Hh. unfold determineBiome, calculateTemperature. cbv zeta.
  destruct (Rle_dec height seaLevel) as [Hle | _]; [lra |].
  destruct (Rgt_dec height seaLevel) as [_ | Hn]; [| contradiction].
  destruct (Rlt_dec _ (-5)) as [_ | Hn]; [reflexivity | exfalso; lra].
Qed.

(** On a tidally locked planet the far side (longitude at least 90
    degrees from the substellar meridian) receives nothing, so every land
    cell there is ICE; and so is every land cell at a pole of a rotating
    planet. *)
Theorem far_side_is_frozen
    (lat lon tilt sunlight rotationPeriod orbitalPeriod moisture height seaLevel : R) :
  height > seaLevel ->
  (Rabs (rotationPeriod - orbitalPeriod) < 0.1
     /\ -90 <= lat <= 90 /\ 90 <= Rabs lon <= 180)
  \/ (~ Rabs (rotationPeriod - orbitalPeriod) < 0.1 /\ Rabs lat = 90) ->
  calculateInsolation lat lon tilt sunlight rotationPeriod orbitalPeriod = 0
  /\ determineBiome
       (calculateTemperature
          (calculateInsolation lat lon tilt sunlight rotationPeriod orbitalPeriod)
          height seaLevel)
       moisture height seaLevel = ICE.
Proof.
  intros Hh Hcase.
  assert (Hzero : calculateInsolation lat lon tilt sunlight rotationPeriod
                    orbitalPeriod = 0).
  { destruct Hcase as [(Hlock & Hlat & Hlon) | (Hfree & Hpole)].
    - rewrite insolation_locked by exact Hlock.
      pose proof (cos_latitude_nonneg lat Hlat) as Hc.
      assert (Hfar : cos (lon * PI / 180) <= 0).
      { pose proof PI_RGT_0 as Hpi.
        destruct (Rle_dec 0 lon) as [Hpos | Hneg].
        - rewrite Rabs_pos_eq in Hlon by exact Hpos. apply cos_le_0; nra.
        - rewrite Rabs_left in Hlon by lra.
          rewrite <- cos_neg. apply cos_le_0; nra. }
      rewrite Rmax_left by nra. lra.
    - rewrite insolation_unlocked by exact Hfree.
      destruct (Rle_dec 0 lat) as [Hpos | Hneg].
      + rewrite Rabs_pos_eq in Hpole by exact Hpos. subst lat.
        rewrite cos_deg_90. lra.
      + rewrite Rabs_left in Hpole by lra.
        replace lat with (-90) by lra. rewrite cos_deg_m90. lra. }
  split; [exact Hzero |]. rewrite Hzero. apply dark_land_is_ice; lra.
Qed.

Lemma far_side_is_frozen_witness :
  calculateInsolation 10 135 23.5 2 1 1 = 0
  /\ determineBiome
       (calculateTemperature (calculateInsolation 10 135 23.5 2 1 1) 0.75 0.5)
       0.5 0.75 0.5 = ICE.
Proof.
  apply far_side_is_frozen; [lra |].
  left. replace (1 - 1) with 0 by lra. rewrite Rabs_R0.
  rewrite (Rabs_pos_eq 135) by lra. lra.
Defined.
End ClimateBounds.

(* ===================================================================== *)
(** * Colours, seeds and the height map: further results *)
(* ===================================================================== *)

Section ColourFacts.
Import BiomeColor.

(** The nine tags of the decision table have nine different colours, none
    of them the fallback; every other string, RIVER among them, gets the
    fallback colour. *)
Theorem getBiomeColor_cases :
  (forall b1 b2, In b1 tableBiomes -> In b2 tableBiomes ->
     getBiomeColor (tag b1) = getBiomeColor (tag b2) -> b1 = b2)
  /\ (forall s, getBiomeColor s = fallback <-> ~ In s (map tag tableBiomes))
  /\ getBiomeColor (tag RIVER) = fallback.
Proof.
  split; [| split].
  - intros b1 b2 H1 H2.
    destruct b1; destruct b2; vm_compute; intros Hc;
      first [reflexivity | discriminate Hc
            | exfalso; vm_compute in H1; intuition discriminate
            | exfalso; vm_compute in H2; intuition discriminate].
  - intros s. unfold getBiomeColor. simpl map.
    repeat match goal with
           | |- context [String.eqb s ?t] =>
               destruct (String.eqb_spec s t) as [-> | ?]
           end;
      try (split; [intros Hc; discriminate Hc
                  | intros Hn; exfalso; apply Hn; simpl; tauto]).
    split; [| reflexivity]. intros _ Hin. simpl in Hin.
    repeat destruct Hin as [Hin | Hin]; try (symmetry in Hin; contradiction).
    exact Hin.
  - reflexivity.
Qed.

Lemma getBiomeColor_cases_witness :
  getBiomeColor "MOUNTAIN" = fallback.
Proof.
  destruct getBiomeColor_cases as (_ & Hfall & _).
  apply Hfall. simpl. intros Hin.
  repeat destruct Hin as [Hin | Hin]; try discriminate Hin. exact Hin.
Defined.
End ColourFacts.

Section SeedFacts.
Import WorldGenerator Sampling.
Context {grid : H3} {simplex : SimplexNoise}.

(** [setSeed] replaces the noise field and nothing else, [loadHeightMap]
    keeps the noise field; and once a height map is loaded the elevation
    of a point depends on the image alone: not on the seed, the method or
    the plates. *)
Theorem height_map_overrides_seed (this this' : t) (img : Image)
    (seed seed' : string) (method method' : GenerationMethod)
    (plates plates' : option (gmap string R)) (id id' : string) (lat lon : R) :
  setSeed (new seed) seed' = new seed'
  /\ heightMapContext (setSeed this seed) = heightMapContext this
  /\ noise3D (loadHeightMap this img) = noise3D this
  /\ heightAt (setSeed (loadHeightMap this img) seed) method plates id lat lon
     = heightAt (loadHeightMap this' img) method' plates' id' lat lon.
Proof. repeat split. Qed.

(** With a height map the elevation is the red channel of the pixel at
    ([safeX], [safeY]) over 255, and that pixel lies inside a non-empty
    image: longitudes from 180 on read the last column, longitudes up to
    -180 the first, and an empty image is read at column 0. *)
Theorem height_map_pixel_in_range (this : t) (ctx : CanvasRenderingContext2D)
    (method : GenerationMethod) (plates : option (gmap string R))
    (id : string) (lat lon : R) :
  heightMapContext this = Some ctx ->
  heightAt this method plates id lat lon
  = IZR (Z.of_N (Byte.to_N (getImageData ctx (safeX this lon) (safeY this lat)))) / 255
  /\ ((1 <= heightMapWidth this)%Z ->
      (0 <= safeX this lon < heightMapWidth this)%Z)
  /\ ((1 <= heightMapHeight this)%Z ->
      (0 <= safeY this lat < heightMapHeight this)%Z)
  /\ ((1 <= heightMapWidth this)%Z -> 180 <= lon ->
      safeX this lon = (heightMapWidth this - 1)%Z)
  /\ (lon <= -180 \/ (heightMapWidth this <= 0)%Z -> safeX this lon = 0%Z).
Proof.
  intros Hctx. unfold heightAt, safeX, safeY. rewrite Hctx. cbv zeta.
  split; [reflexivity |]. split; [lia |]. split; [lia |]. split.
  - intros Hw Hlon.
    set (w := heightMapWidth this) in *.
    assert (Hw' : 1 <= IZR w) by (apply IZR_le in Hw; exact Hw).
    destruct (base_Int_part ((lon + 180) / 360 * IZR w)) as [_ Hgt].
    assert (Hfl : IZR (w - 1) < IZR (JS.floor ((lon + 180) / 360 * IZR w))).
    { rewrite minus_IZR. unfold JS.floor. nra. }
    apply lt_IZR in Hfl. lia.
  - intros [Hlon | Hw]; [| lia].
    set (w := heightMapWidth this) in *.
    destruct (Z_le_gt_dec w 0) as [Hw0 | Hw1]; [lia |].
    assert (Hw' : 1 <= IZR w) by (apply IZR_le; lia).
    destruct (base_Int_part ((lon + 180) / 360 * IZR w)) as [Hle _].
    assert (Hfl : IZR (JS.floor ((lon + 180) / 360 * IZR w)) < IZR 1).
    { unfold JS.floor. nra. }
    apply lt_IZR in Hfl. lia.
Qed.

Lemma height_map_pixel_in_range_witness :
  (0 <= safeX TwoCells.generator 200 < 1)%Z
  /\ safeX TwoCells.generator 200 = (1 - 1)%Z.
Proof.
  destruct (height_map_pixel_in_range TwoCells.generator
              {| getImageData := red TwoCells.white |} noise None "a" 0 200
              eq_refl) as (_ & Hx & _ & Heast & _).
  split; [apply Hx; simpl; lia | apply Heast; [simpl; lia | lra]].
Defined.
End SeedFacts.

(* ===================================================================== *)
(** * generateTectonicPlates: further results *)
(* ===================================================================== *)

Section PlateFacts.
Import WorldGenerator Sampling.
Context {grid : H3} {rng : MathRandom}.

(** ** Maps filled by a loop of [set] *)

Lemma fold_insert_lookup {A V : Type} (f : gmap string V -> A -> gmap string V)
    (key : A -> string) (val : A -> V) :
  (forall m x, f m x = <[key x := val x]> m) ->
  forall (l : list A) (m0 : gmap string V) (k : string),
    (forall v, fold_left f l m0 !! k = Some v ->
       m0 !! k = Some v \/ exists x, In x l /\ key x = k /\ val x = v)
    /\ (In k (map key l) -> is_Some (fold_left f l m0 !! k))
    /\ (is_Some (m0 !! k) -> is_Some (fold_left f l m0 !! k)).
Proof.
  intros Hf l. induction l as [| x l IH]; intros m0 k; simpl.
  - repeat split; [auto | intros [] | auto].
  - destruct (IH (f m0 x) k) as (Hlk & Hin & Hkeep).
    assert (Hstep : forall v, f m0 x !! k = Some v ->
              m0 !! k = Some v \/ (key x = k /\ val x = v)).
    { intros v. rewrite Hf. destruct (decide (key x = k)) as [Heq | Hne].
      - subst k. rewrite lookup_insert_eq. intros [= <-]. auto.
      - rewrite lookup_insert_ne by exact Hne. auto. }
    repeat split.
    + intros v Hv. apply Hlk in Hv as [Hv | (y & Hy & Hk & Hval)].
      * apply Hstep in Hv as [Hv | [Hk Hval]]; [auto |].
        right. exists x. auto.
      * right. exists y. auto.
    + intros [Hk | Hk]; [| apply Hin, Hk].
      apply Hkeep. rewrite Hf. subst k. rewrite lookup_insert_eq. eauto.
    + intros Hsome. apply Hkeep. rewrite Hf.
      destruct (decide (key x = k)) as [Heq | Hne].
      * subst k. rewrite lookup_insert_eq. eauto.
      * rewrite lookup_insert_ne by exact Hne. exact Hsome.
Qed.

(** ** The nearest centre *)

Lemma ltInf_true (x : R) (m : option R) :
  JS.ltInf x m = true <-> match m with None => True | Some y => x < y end.
Proof.
  destruct m as [y |]; simpl; [| tauto].
  destruct (Rlt_dec x y); split; auto; discriminate.
Qed.

Lemma nearestCenter_fold (lat lon : R) (centerCoords : list (R * R)) :
  nearestCenter lat lon centerCoords
  = snd (fold_left (nearestStep lat lon)
           (combine (seq 0 (length centerCoords)) centerCoords) (None, 0%nat)).
Proof. reflexivity. Qed.

Lemma nearestStep_eq (lat lon : R) (minDist : option R) (plateId pid : nat)
    (center : R * R) :
  nearestStep lat lon (minDist, plateId) (pid, center)
  = if JS.ltInf (dist lat lon center) minDist
    then (Some (dist lat lon center), pid) else (minDist, plateId).
Proof. reflexivity. Qed.

Lemma nearest_fold (lat lon : R) (cc : list (R * R)) :
  forall (start : nat) (minDist : option R) (plateId : nat),
    let res :=
      fold_left (nearestStep lat lon)
        (combine (seq start (length cc)) cc) (minDist, plateId) in
    (forall j c', nth_error cc j = Some c' ->
       JS.ltInf (dist lat lon c') (fst res) = false)
    /\ (forall x, JS.ltInf x (fst res) = true -> JS.ltInf x minDist = true)
    /\ (res = (minDist, plateId)
        \/ exists i c,
             nth_error cc i = Some c
             /\ snd res = (start + i)%nat
             /\ fst res = Some (dist lat lon c)
             /\ JS.ltInf (dist lat lon c) minDist = true
             /\ forall j c', (j < i)%nat -> nth_error cc j = Some c' ->
                  dist lat lon c < dist lat lon c').
Proof.
  induction cc as [| c cc IH]; intros start minDist plateId;
    cbn [length seq combine fold_left]; cbv zeta.
  - repeat split; [intros [| j] c' Hc'; discriminate | auto | auto].
  - rewrite nearestStep_eq.
    set (acc' := if JS.ltInf (dist lat lon c) minDist
                 then (Some (dist lat lon c), start) else (minDist, plateId)).
    destruct (IH (S start) (fst acc') (snd acc')) as (Hall & Hmono & Hcase).
    cbv zeta in Hall, Hmono, Hcase.
    rewrite <- surjective_pairing in Hall, Hmono, Hcase.
    set (res := fold_left _ _ acc') in *.
    assert (Hacc_mono : forall x, JS.ltInf x (fst acc') = true ->
                          JS.ltInf x minDist = true).
    { intros x. unfold acc'.
      destruct (JS.ltInf (dist lat lon c) minDist) eqn:Hc; cbn [fst]; [| auto].
      rewrite !ltInf_true. apply ltInf_true in Hc. intros Hx.
      destruct minDist as [d |]; [lra | exact I]. }
    assert (Hacc_c : JS.ltInf (dist lat lon c) (fst acc') = false).
    { unfold acc'. destruct (JS.ltInf (dist lat lon c) minDist) eqn:Hc; cbn [fst];
        [| exact Hc].
      cbn [JS.ltInf].
      destruct (Rlt_dec (dist lat lon c) (dist lat lon c)); [lra | reflexivity]. }
    repeat split.
    + intros [| j] c' Hc'; cbn [nth_error] in Hc'; [| eapply Hall, Hc'].
      injection Hc' as <-.
      destruct (JS.ltInf (dist lat lon c) (fst res)) eqn:Hr; [| reflexivity].
      apply Hmono in Hr. congruence.
    + intros x Hx. apply Hacc_mono, Hmono, Hx.
    + destruct Hcase as [Hsame | (i & ci & Hi & Hp & Hm & Hlt & Hfirst)].
      * unfold acc' in Hsame |- *.
        destruct (JS.ltInf (dist lat lon c) minDist) eqn:Hc; [| left; exact Hsame].
        right. exists 0%nat, c. rewrite Hsame. cbn [fst snd nth_error].
        repeat split; [lia | exact Hc |]. intros j c' Hj. lia.
      * right. exists (S i), ci. cbn [nth_error].
        repeat split; [exact Hi | lia | exact Hm | apply Hacc_mono, Hlt |].
        intros [| j] c' Hj Hc'; cbn [nth_error] in Hc'.
        -- injection Hc' as <-. apply ltInf_true in Hlt.
           unfold acc' in Hlt.
           destruct (JS.ltInf (dist lat lon c) minDist) eqn:Hc; cbn [fst] in Hlt;
             [exact Hlt |].
           destruct minDist as [d |]; [| discriminate Hc].
           cbn [JS.ltInf] in Hc.
           destruct (Rlt_dec (dist lat lon c) d); [discriminate | lra].
        -- apply (Hfirst j c'); [lia | exact Hc'].
Qed.

(** Each cell goes to the first centre at minimal squared planar distance:
    no centre is nearer, and every earlier centre is strictly farther. *)
Theorem nearestCenter_first_minimum (lat lon : R) (centerCoords : list (R * R)) :
  centerCoords <> [] ->
  exists c,
    nth_error centerCoords (nearestCenter lat lon centerCoords) = Some c
    /\ (nearestCenter lat lon centerCoords < length centerCoords)%nat
    /\ forall j c', nth_error centerCoords j = Some c' ->
         dist lat lon c <= dist lat lon c'
         /\ ((j < nearestCenter lat lon centerCoords)%nat ->
             dist lat lon c < dist lat lon c').
Proof.
  intros Hne. rewrite nearestCenter_fold.
  destruct (nearest_fold lat lon centerCoords 0 None 0) as (Hall & _ & Hcase).
  cbv zeta in Hall, Hcase.
  set (res := fold_left _ _ (None, 0%nat)) in *.
  destruct Hcase as [Hsame | (i & c & Hi & Hp & Hm & _ & Hfirst)].
  - exfalso. destruct centerCoords as [| c0 cs]; [contradiction |].
    specialize (Hall 0%nat c0 eq_refl). rewrite Hsame in Hall. discriminate.
  - simpl in Hp. rewrite Hp. exists c.
    split; [exact Hi |]. split; [apply nth_error_Some; congruence |].
    intros j c' Hc'. split; [| intros Hj; eapply Hfirst; eassumption].
    specialize (Hall j c' Hc'). rewrite Hm in Hall. cbn [JS.ltInf] in Hall.
    destruct (Rlt_dec (dist lat lon c') (dist lat lon c)); [discriminate | lra].
Qed.

Lemma nearestCenter_first_minimum_witness :
  let centers : list (R * R) := [(0, 0); (0, 90); (0, 0)] in
  exists c,
    nth_error centers (nearestCenter 0 10 centers) = Some c
    /\ (nearestCenter 0 10 centers < length centers)%nat
    /\ forall j c', nth_error centers j = Some c' ->
         dist 0 10 c <= dist 0 10 c'
         /\ ((j < nearestCenter 0 10 centers)%nat -> dist 0 10 c < dist 0 10 c').
Proof.
  intros centers. apply (nearestCenter_first_minimum 0 10 centers).
  discriminate.
Defined.

Lemma nearestCenter_lt (lat lon : R) (centerCoords : list (R * R)) :
  centerCoords <> [] ->
  (nearestCenter lat lon centerCoords < length centerCoords)%nat.
Proof.
  intros Hne. rewrite nearestCenter_fold.
  destruct (nearest_fold lat lon centerCoords 0 None 0) as (Hall & _ & Hcase).
  cbv zeta in Hall, Hcase.
  destruct Hcase as [Hsame | (i & c & Hi & Hp & _)].
  - exfalso. destruct centerCoords as [| c0 cs]; [contradiction |].
    specialize (Hall 0%nat c0 eq_refl). rewrite Hsame in Hall. discriminate.
  - rewrite Hp. simpl. apply nth_error_Some. congruence.
Qed.

(** ** The plates *)

Lemma pickCenters_length (numPlates : nat) (cells : list string) (c0 : string)
    (pos : nat) :
  length (pickCenters numPlates cells c0 pos) = numPlates.
Proof.
  revert pos. induction numPlates as [| k IH]; intros pos; simpl;
    [reflexivity | rewrite IH; reflexivity].
Qed.

Lemma pickCenters_In (numPlates : nat) (cells : list string) (c0 : string)
    (pos : nat) (c : string) :
  cells <> [] -> In c (pickCenters numPlates cells c0 pos) -> In c cells.
Proof.
  intros Hne. revert pos. induction numPlates as [| k IH]; intros pos; simpl;
    [intros [] |].
  intros [<- | Hin]; [| eapply IH, Hin].
  apply nth_In, randomIndex_lt. destruct cells; [contradiction | simpl; lia].
Qed.

Lemma plates_spec (cells : list string) (pos : nat) :
  cells <> [] ->
  exists heights numPlates,
    generateTectonicPlates cells pos
    = Some (heights, (pos + 1 + 2 * numPlates)%nat)
    /\ (8 <= numPlates <= 12)%nat
    /\ (forall id, is_Some (heights !! id) <-> In id cells)
    /\ (forall id h, heights !! id = Some h -> 0.1 <= h < 0.9).
Proof.
  intros Hne. unfold generateTectonicPlates.
  destruct cells as [| c0 cs] eqn:Hcells; [contradiction |]. rewrite <- Hcells.
  cbv zeta.
  set (numPlates := (8 + JS.randomIndex (random pos) 5)%nat).
  set (centers := pickCenters numPlates cells c0 (S pos)).
  set (centerCoords := map cellToLatLng centers).
  set (cellCoords := map _ cells).
  set (plateHeights := map _ (seq 0 (length centers))).
  set (plateMap := fold_left _ cellCoords (∅ : gmap string nat)).
  set (heightMap := fold_left _ cellCoords (∅ : gmap string R)).
  assert (Hcells' : cells <> []) by (rewrite Hcells; discriminate).
  assert (Hnum : (8 <= numPlates <= 12)%nat).
  { pose proof (randomIndex_lt (random pos) 5 ltac:(lia)). unfold numPlates. lia. }
  assert (Hlen : length centers = numPlates) by apply pickCenters_length.
  assert (Hcc : length centerCoords = numPlates)
    by (unfold centerCoords; rewrite length_map; exact Hlen).
  assert (Hph : length plateHeights = numPlates)
    by (unfold plateHeights; rewrite length_map, length_seq; exact Hlen).
  assert (Hkeys : map (fun x : string * R * R => fst (fst x)) cellCoords = cells).
  { unfold cellCoords. rewrite map_map.
    rewrite (map_ext _ (fun x => x)); [apply map_id |].
    intros x. destruct (cellToLatLng x). reflexivity. }
  pose proof (fold_insert_lookup
                (fun (m : gmap string nat) (c : string * R * R) =>
                   let '(id, lat, lon) := c in
                   <[id := nearestCenter lat lon centerCoords]> m)
                (fun x => fst (fst x))
                (fun x => nearestCenter (snd (fst x)) (snd x) centerCoords)
                ltac:(intros m [[id lat] lon]; reflexivity)
                cellCoords ∅) as Hplate.
  pose proof (fold_insert_lookup
                (fun (m : gmap string R) (c : string * R * R) =>
                   let '(id, _, _) := c in
                   <[id := match plateMap !! id with
                           | Some pid => nth pid plateHeights 0
                           | None => 0
                           end]> m)
                (fun x => fst (fst x))
                (fun x => match plateMap !! fst (fst x) with
                          | Some pid => nth pid plateHeights 0
                          | None => 0
                          end)
                ltac:(intros m [[id lat] lon]; reflexivity)
                cellCoords ∅) as Hheight.
  fold plateMap in Hplate. fold heightMap in Hheight.
  exists heightMap, numPlates. split; [| split; [exact Hnum | split]].
  - f_equal. f_equal. lia.
  - intros id. destruct (Hheight id) as (Hlk & Hin & _). split.
    + intros [h Hh]. apply Hlk in Hh as [Hh | (x & Hx & Hk & _)].
      * rewrite lookup_empty in Hh. discriminate.
      * rewrite <- Hkeys, <- Hk.
        apply (in_map (fun x : string * R * R => fst (fst x))), Hx.
    + intros Hid. apply Hin. rewrite Hkeys. exact Hid.
  - intros id h Hh. destruct (Hheight id) as (Hlk & _ & _).
    apply Hlk in Hh as [Hh | (x & Hx & Hk & Hval)];
      [rewrite lookup_empty in Hh; discriminate |].
    destruct (Hplate (fst (fst x))) as (Hplk & Hpin & _).
    destruct Hpin as [pid Hpid];
      [apply (in_map (fun x : string * R * R => fst (fst x))), Hx |].
    rewrite Hpid in Hval.
    apply Hplk in Hpid as [Hpid | (y & _ & _ & Hy)];
      [rewrite lookup_empty in Hpid; discriminate |].
    assert (Hlt : (pid < length plateHeights)%nat).
    { rewrite Hph, <- Hcc, <- Hy. apply nearestCenter_lt.
      intros Hnil. rewrite Hnil in Hcc. simpl in Hcc. lia. }
    pose proof (nth_In plateHeights 0 Hlt) as Hnth. rewrite Hval in Hnth.
    unfold plateHeights in Hnth. apply in_map_iff in Hnth as (i & <- & _).
    pose proof (JS.draw_nonneg (random (S pos + numPlates + i))) as H0.
    pose proof (JS.draw_below_one (random (S pos + numPlates + i))) as H1.
    lra.
Qed.

(** The call draws a plate count between 8 and 12 and reads
    1 + 2 * count draws.  On a non-empty cell list it returns a map whose
    keys are exactly the cells and whose heights all lie in [0.1, 0.9):
    every cell got the height of a plate.  On the empty list the map is
    empty. *)
Theorem generateTectonicPlates_result (cells : list string) (pos : nat) :
  cells <> [] ->
  (exists numPlates,
     generateTectonicPlates [] pos = Some (∅, (pos + 1 + 2 * numPlates)%nat)
     /\ (8 <= numPlates <= 12)%nat)
  /\ exists heights numPlates,
       generateTectonicPlates cells pos
       = Some (heights, (pos + 1 + 2 * numPlates)%nat)
       /\ (8 <= numPlates <= 12)%nat
       /\ (forall id, is_Some (heights !! id) <-> In id cells)
       /\ (forall id h, heights !! id = Some h -> 0.1 <= h < 0.9).
Proof.
  intros Hne. split; [| apply plates_spec, Hne].
  exists (8 + JS.randomIndex (random pos) 5)%nat. split.
  - unfold generateTectonicPlates. cbv zeta. f_equal. f_equal. lia.
  - pose proof (randomIndex_lt (random pos) 5 ltac:(lia)). lia.
Qed.

(** Under the tectonic method, with no height map and a noise field in
    [-1,1], the elevation of a cell is its plate's height plus a tenth of
    the noise: it stays within 0.1 of the plate, inside [0,1], and the
    clamp never cuts it. *)
Theorem tectonic_height_near_plate (this : t) (cells : list string)
    (pos pos' : nat) (heights : gmap string R) (id : string) (lat lon : R) :
  generateTectonicPlates cells pos = Some (heights, pos') ->
  In id cells ->
  heightMapContext this = None ->
  (forall x y z, -1 <= noise3D this x y z <= 1) ->
  exists base,
    heights !! id = Some base
    /\ 0.1 <= base < 0.9
    /\ heightAt this tectonic (Some heights) id lat lon
       = base + getNoise this lat lon * 0.1
    /\ Rabs (heightAt this tectonic (Some heights) id lat lon - base) <= 0.1.
Proof.
  intros Hrun Hid Hctx Hn.
  assert (Hne : cells <> []) by (intros ->; destruct Hid).
  destruct (plates_spec cells pos Hne) as (heights' & k & Hrun' & _ & Hdom & Hval).
  rewrite Hrun in Hrun'. injection Hrun' as <- _.
  destruct (proj2 (Hdom id) Hid) as [base Hbase].
  pose proof (Hval id base Hbase) as Hrange.
  pose proof (getNoise_range this lat lon Hn) as Hg.
  exists base. split; [exact Hbase | split; [exact Hrange |]].
  assert (Hh : heightAt this tectonic (Some heights) id lat lon
               = base + getNoise this lat lon * 0.1).
  { unfold heightAt. rewrite Hctx, Hbase. cbv zeta. simpl default.
    rewrite Rmax_right by lra. rewrite Rmin_right by lra. reflexivity. }
  split; [exact Hh |]. rewrite Hh. apply Rabs_le. lra.
Qed.
End PlateFacts.

Lemma generateTectonicPlates_result_witness :
  let cells := ["a"; "b"]%string in
  exists heights numPlates,
    @WorldGenerator.generateTectonicPlates TwoCells.grid TwoCells.process cells 0
    = Some (heights, (0 + 1 + 2 * numPlates)%nat)
    /\ (8 <= numPlates <= 12)%nat
    /\ (forall id, is_Some (heights !! id) <-> In id cells)
    /\ (forall id h, heights !! id = Some h -> 0.1 <= h < 0.9).
Proof.
  intros cells.
  apply (@generateTectonicPlates_result TwoCells.grid TwoCells.process cells 0%nat).
  discriminate.
Defined.


Lemma tectonic_height_near_plate_witness :
  exists heights pos' base,
    @WorldGenerator.generateTectonicPlates TwoCells.grid TwoCells.process
      ["a"; "b"]%string 0 = Some (heights, pos')
    /\ heights !! "a"%string = Some base
    /\ 0.1 <= base < 0.9
    /\ WorldGenerator.heightAt TwoCells.plain tectonic (Some heights) "a" 0 0
       = base + WorldGenerator.getNoise TwoCells.plain 0 0 * 0.1.
Proof.
  destruct (@plates_spec TwoCells.grid TwoCells.process ["a"; "b"]%string 0%nat)
    as (heights & k & Hrun & _); [discriminate |].
  destruct (@tectonic_height_near_plate TwoCells.grid TwoCells.process
              TwoCells.plain ["a"; "b"]%string 0%nat _ heights "a"%string 0 0 Hrun)
    as (base & Hbase & Hrange & Hh & _).
  - left. reflexivity.
  - reflexivity.
  - intros x y z. simpl. lra.
  - exists heights, (0 + 1 + 2 * k)%nat, base. auto.
Defined.

(* ===================================================================== *)
(** * simulateRivers: further results *)
(* ===================================================================== *)

Section RiverBounds.
Import WorldGenerator RiverSpec.
Context {grid : H3} {rng : MathRandom}.

(** A river always starts at a candidate: the index drawn is in range, so
    the start cell is one of the input cells and lies more than 0.3 above
    sea level. *)
Theorem river_start_is_candidate (cells : list CellInfo.t) (seaLevel : R)
    (c0 : CellInfo.t) (cs : list CellInfo.t) (pos : nat) :
  riverCandidates cells seaLevel = c0 :: cs ->
  (JS.randomIndex (random pos) (length (c0 :: cs)) < length (c0 :: cs))%nat
  /\ In (startCell (c0 :: cs) c0 pos) cells
  /\ CellInfo.height (startCell (c0 :: cs) c0 pos) > seaLevel + 0.3.
Proof.
  intros Hc. split; [apply randomIndex_lt; simpl; lia |].
  apply riverCandidates_In. rewrite Hc. apply startCell_In. left. reflexivity.
Qed.

(** Steepest descent: the neighbour the scan selects is a different cell
    of the 1-ring, strictly below the current cell, and no other cell of
    the ring has a lower recorded height; when it selects none, the
    current cell is a local minimum. *)
Theorem lowestNeighbor_steepest (heightMap : gmap string R) (cur : CellInfo.t) :
  match lowestNeighbor heightMap cur with
  | (Some n, low) =>
      In n (gridDisk1 (CellInfo.h3Index cur))
      /\ n <> CellInfo.h3Index cur
      /\ heightMap !! n = Some low
      /\ low < CellInfo.height cur
      /\ forall n' h, In n' (gridDisk1 (CellInfo.h3Index cur)) ->
           n' <> CellInfo.h3Index cur -> heightMap !! n' = Some h -> low <= h
  | (None, low) => low = CellInfo.height cur /\ localMinimum heightMap cur
  end.
Proof.
  pose proof (lowestNeighbor_scanned heightMap cur) as [Hbest Hall].
  destruct (lowestNeighbor heightMap cur) as [[n |] low]; simpl in Hbest, Hall.
  - destruct Hbest as (Hin & Hne & Hlk & Hlt). auto.
  - split; [exact Hbest |]. intros n h Hin Hne Hlk.
    rewrite <- Hbest. eapply Hall; eassumption.
Qed.

(** ** A walk never comes back *)

Lemma walkPath_below_start (seaLevel : R) (heightMap : gmap string R)
    (remaining : nat) (cur c : CellInfo.t) (rest : list CellInfo.t) :
  walkPath seaLevel heightMap remaining cur = cur :: rest ->
  In c rest -> CellInfo.height c < CellInfo.height cur.
Proof.
  revert cur c rest. induction remaining as [| r IH]; intros cur c rest;
    [discriminate |].
  cbn [walkPath].
  destruct (Rgt_dec (CellInfo.height cur) seaLevel); [| discriminate].
  pose proof (lowestNeighbor_scanned heightMap cur) as [Hbest _].
  destruct (lowestNeighbor heightMap cur) as [[n |] low];
    [| intros [= <-] []].
  destruct (JS.truthy (Some n)); [| intros [= <-] []].
  simpl in Hbest. destruct Hbest as (_ & _ & _ & Hlt).
  intros [= <-] Hin.
  destruct (walkPath_head seaLevel heightMap r (CellInfo.mk n 0 0 low))
    as [Hnil | [rest' Hcons]].
  - rewrite Hnil in Hin. destruct Hin.
  - rewrite Hcons in Hin. destruct Hin as [<- | Hin]; [exact Hlt |].
    specialize (IH _ c rest' Hcons Hin). simpl in IH. lra.
Qed.

Lemma walkPath_sorted (seaLevel : R) (heightMap : gmap string R)
    (remaining : nat) (cur : CellInfo.t) :
  StronglySorted (fun a b => CellInfo.height b < CellInfo.height a)
    (walkPath seaLevel heightMap remaining cur).
Proof.
  revert cur. induction remaining as [| r IH]; intros cur; [constructor |].
  destruct (walkPath_head seaLevel heightMap (S r) cur) as [Hnil | [rest Hcons]].
  - rewrite Hnil. constructor.
  - rewrite Hcons. constructor.
    + pose proof Hcons as Hrest. cbn [walkPath] in Hrest.
      destruct (Rgt_dec (CellInfo.height cur) seaLevel); [| discriminate].
      destruct (lowestNeighbor heightMap cur) as [[n |] low];
        [| injection Hrest as <-; constructor].
      destruct (JS.truthy (Some n)); [| injection Hrest as <-; constructor].
      injection Hrest as <-. apply IH.
    + apply List.Forall_forall. intros c Hc.
      eapply walkPath_below_start; eassumption.
Qed.

(** Heights fall strictly along a walk, so a walk never passes twice
    through a cell: the ids it marks are pairwise different (when the
    start cell carries the height the map records for it, as every cell
    of [generateWorld] does). *)
Theorem walk_never_returns (seaLevel : R) (heightMap : gmap string R)
    (remaining : nat) (cur : CellInfo.t) :
  heightMap !! CellInfo.h3Index cur = Some (CellInfo.height cur) ->
  StronglySorted (fun a b => CellInfo.height b < CellInfo.height a)
    (walkPath seaLevel heightMap remaining cur)
  /\ NoDup (map CellInfo.h3Index (walkPath seaLevel heightMap remaining cur)).
Proof.
  intros Hcur. split; [apply walkPath_sorted |].
  assert (Hrec : forall c, In c (walkPath seaLevel heightMap remaining cur) ->
                   heightMap !! CellInfo.h3Index c = Some (CellInfo.height c)).
  { intros c Hc. apply walkPath_recorded in Hc as [-> | Hc]; assumption. }
  pose proof (walkPath_sorted seaLevel heightMap remaining cur) as Hsorted.
  induction Hsorted as [| c path _ IH Hbelow]; simpl; constructor.
  - intros Hin. apply list_elem_of_In, in_map_iff in Hin as (c' & Hid & Hc').
    rewrite List.Forall_forall in Hbelow. specialize (Hbelow c' Hc').
    pose proof (Hrec c (or_introl eq_refl)) as H1.
    pose proof (Hrec c' (or_intror Hc')) as H2.
    rewrite Hid, H1 in H2. injection H2 as H2. lra.
  - apply IH. intros c' Hc'. apply Hrec. right. exact Hc'.
Qed.
End RiverBounds.

Section RiverAccounting.
Import WorldGenerator RiverSpec.
Context {grid : H3} {rng : MathRandom}.

Lemma size_union_le (X Y : gset string) : (size (X ∪ Y) <= size X + size Y)%nat.
Proof.
  rewrite size_union_alt.
  assert (Hsub : (size (Y ∖ X) <= size Y)%nat)
    by (apply subseteq_size, subseteq_difference_l; reflexivity).
  lia.
Qed.

Lemma size_list_to_set_le (l : list string) :
  (size (list_to_set l : gset string) <= length l)%nat.
Proof.
  induction l as [| x l IH].
  - rewrite list_to_set_nil, size_empty. simpl. lia.
  - rewrite list_to_set_cons.
    pose proof (size_union_le {[x]} (list_to_set l)) as Hu.
    rewrite size_singleton in Hu. simpl. lia.
Qed.

Lemma riverLoop_size (seaLevel : R) (heightMap : gmap string R)
    (candidates : list CellInfo.t) (todo pos : nat) (rs : gset string) :
  (size (fst (riverLoop seaLevel heightMap candidates todo pos rs))
   <= size rs + todo * maxPathLength)%nat.
Proof.
  revert pos rs. induction todo as [| todo IH]; intros pos rs;
    cbn [riverLoop fst]; [lia |].
  destruct candidates as [| c0 cs]; cbn [fst]; [lia |].
  specialize (IH (S pos)
                (descend seaLevel heightMap maxPathLength
                   (startCell (c0 :: cs) c0 pos) rs)).
  rewrite descend_walkPath in IH at 2.
  pose proof (size_union_le
                (list_to_set (map CellInfo.h3Index
                   (walkPath seaLevel heightMap maxPathLength
                      (startCell (c0 :: cs) c0 pos)))) rs) as Hu.
  pose proof (size_list_to_set_le
                (map CellInfo.h3Index
                   (walkPath seaLevel heightMap maxPathLength
                      (startCell (c0 :: cs) c0 pos)))) as Hl.
  rewrite length_map in Hl.
  pose proof (walkPath_length seaLevel heightMap maxPathLength
                (startCell (c0 :: cs) c0 pos)) as Hw.
  unfold maxPathLength in *. lia.
Qed.

Lemma simulateRivers_source (cells : list CellInfo.t) (seaLevel : R) (pos : nat)
    (x : string) :
  x ∈ simulateRivers cells seaLevel pos ->
  exists c, In c cells /\ CellInfo.h3Index c = x /\ CellInfo.height c > seaLevel.
Proof.
  intros Hx. apply simulateRivers_elem in Hx as (c0 & cs & i & Hc & _ & Hpath).
  apply in_map_iff in Hpath as (c & Hid & Hin).
  pose proof (walkPath_above_sea _ _ _ _ _ Hin) as Habove.
  apply walkPath_recorded in Hin as [-> | Hrec].
  - exists (startCell (c0 :: cs) c0 (pos + i)). split; [| auto].
    assert (Hin : In (startCell (c0 :: cs) c0 (pos + i))
                    (riverCandidates cells seaLevel))
      by (rewrite Hc; apply startCell_In; left; reflexivity).
    apply riverCandidates_In in Hin as [Hin _]. exact Hin.
  - apply buildHeightMap_lookup in Hrec as (c' & Hin' & Hid' & Hh').
    exists c'. split; [exact Hin' | split; [congruence | lra]].
Qed.

Lemma simulateRivers_ids (cells : list CellInfo.t) (seaLevel : R) (pos : nat)
    (x : string) :
  x ∈ simulateRivers cells seaLevel pos -> In x (map CellInfo.h3Index cells).
Proof.
  intros Hx. apply simulateRivers_source in Hx as (c & Hin & <- & _).
  apply in_map, Hin.
Qed.

(** What the river pass can cost and produce: the set holds at most
    50 * 100 ids and at most one per input cell; with at least one
    candidate it is not empty and exactly 50 draws of [Math.random] are
    read. *)
Theorem simulateRivers_accounting (cells : list CellInfo.t) (seaLevel : R)
    (pos : nat) :
  (size (simulateRivers cells seaLevel pos) <= 5000)%nat
  /\ (size (simulateRivers cells seaLevel pos) <= length cells)%nat
  /\ (riverCandidates cells seaLevel <> [] ->
      simulateRivers cells seaLevel pos <> ∅
      /\ snd (simulateRiversFrom cells seaLevel pos) = (pos + 50)%nat).
Proof.
  split; [| split].
  - unfold simulateRivers, simulateRiversFrom.
    pose proof (riverLoop_size seaLevel (buildHeightMap cells)
                  (riverCandidates cells seaLevel) numRivers pos ∅) as Hs.
    rewrite size_empty in Hs. unfold numRivers, maxPathLength in *. lia.
  - transitivity (size (list_to_set (map CellInfo.h3Index cells) : gset string)).
    + apply subseteq_size. intros x Hx.
      apply elem_of_list_to_set, list_elem_of_In, simulateRivers_ids with seaLevel pos.
      exact Hx.
    + rewrite <- (length_map CellInfo.h3Index cells). apply size_list_to_set_le.
  - intros Hne. destruct (riverCandidates cells seaLevel) as [| c0 cs] eqn:Hc;
      [contradiction |].
    split.
    + intros Hempty.
      pose proof (simulateRivers_start_marked cells seaLevel pos 0 c0 cs Hc
                    ltac:(unfold numRivers; lia)) as Hin.
      rewrite Hempty in Hin. apply not_elem_of_empty in Hin. exact Hin.
    + unfold simulateRiversFrom. rewrite Hc.
      apply riverLoop_position. discriminate.
Qed.
End RiverAccounting.

Section RiverBoundsExamples.
Import WorldGenerator.

Lemma river_start_is_candidate_witness :
  In (@startCell TwoCells.process [TwoCells.a; TwoCells.b] TwoCells.a 0)
     [TwoCells.a; TwoCells.b]
  /\ CellInfo.height
       (@startCell TwoCells.process [TwoCells.a; TwoCells.b] TwoCells.a 0)
     > 0.5 + 0.3.
Proof.
  destruct (@river_start_is_candidate TwoCells.process
              [TwoCells.a; TwoCells.b] 0.5 TwoCells.a [TwoCells.b] 0%nat
              twoCells_candidates) as (_ & Hin & Hgt).
  split; [exact Hin | exact Hgt].
Defined.

Lemma twoCells_recorded :
  buildHeightMap [TwoCells.a; TwoCells.b] !! CellInfo.h3Index TwoCells.a
  = Some (CellInfo.height TwoCells.a).
Proof.
  unfold buildHeightMap. simpl fold_left.
  rewrite lookup_insert_ne by discriminate.
  apply lookup_insert_eq.
Qed.

Lemma walk_never_returns_witness :
  NoDup (map CellInfo.h3Index
           (@walkPath TwoCells.grid 0.5 (buildHeightMap [TwoCells.a; TwoCells.b])
              maxPathLength TwoCells.a)).
Proof.
  apply (@walk_never_returns TwoCells.grid 0.5
           (buildHeightMap [TwoCells.a; TwoCells.b]) maxPathLength TwoCells.a
           twoCells_recorded).
Defined.

Lemma simulateRivers_accounting_witness :
  @simulateRivers TwoCells.grid TwoCells.process [TwoCells.a; TwoCells.b] 0.5 0 <> ∅
  /\ snd (@simulateRiversFrom TwoCells.grid TwoCells.process
            [TwoCells.a; TwoCells.b] 0.5 0) = (0 + 50)%nat.
Proof.
  destruct (@simulateRivers_accounting TwoCells.grid TwoCells.process
              [TwoCells.a; TwoCells.b] 0.5 0%nat) as (_ & _ & Hsome).
  apply Hsome. rewrite twoCells_candidates. discriminate.
Defined.
End RiverBoundsExamples.

(* ===================================================================== *)
(** * generateWorld: further results *)
(* ===================================================================== *)

Section OutputFacts.
Import WorldGenerator.
Context {grid : H3} {rng : MathRandom}.

Lemma cellInfo_coords (this : t) (generationMethod : GenerationMethod)
    (tectonicHeights : option (gmap string R)) (h3Index : string) :
  (CellInfo.lat (cellInfo this generationMethod tectonicHeights h3Index),
   CellInfo.lon (cellInfo this generationMethod tectonicHeights h3Index))
  = cellToLatLng h3Index.
Proof. unfold cellInfo. destruct (cellToLatLng h3Index). reflexivity. Qed.

(** A river id of the output belongs to a record above sea level: the
    elevation of a cell is a function of its id. *)
Lemma river_record_above_sea (this : t) (generationMethod : GenerationMethod)
    (tectonicHeights : option (gmap string R)) (allCells : list string)
    (seaLevel : R) (pos : nat) (x : string) :
  x ∈ simulateRivers (map (cellInfo this generationMethod tectonicHeights) allCells)
        seaLevel pos ->
  CellInfo.height (cellInfo this generationMethod tectonicHeights x) > seaLevel.
Proof.
  intros Hx. apply simulateRivers_source in Hx as (c & Hin & Hid & Hgt).
  apply in_map_iff in Hin as (x' & <- & _).
  rewrite cellInfo_h3Index in Hid. subst x'. exact Hgt.
Qed.

(** In the output the river flag and the RIVER biome are the same thing:
    a flagged cell is always above sea level, hence always RIVER, and an
    unflagged cell has the biome the table gives to its own temperature,
    moisture and height.  So the 0.3 added to a river's moisture never
    decides a biome. *)
Theorem generateWorld_river_flag (this : t) (resolution : nat)
    (seaLevel sunlight axialTilt rotationSpeed rotationPeriod orbitalPeriod : R)
    (generationMethod : GenerationMethod) (pos : nat) :
  expandCells resolution <> [] \/ generationMethod = noise ->
  exists out,
    generateWorld this resolution seaLevel sunlight axialTilt rotationSpeed
      rotationPeriod orbitalPeriod generationMethod pos = Some out
    /\ Forall (fun r =>
                 (CellData.isRiver r = true <-> CellData.biome r = RIVER)
                 /\ (CellData.isRiver r = true -> CellData.height r > seaLevel)
                 /\ (CellData.isRiver r = false ->
                     CellData.biome r
                     = ClimateSystem.determineBiome (CellData.temperature r)
                         (CellData.moisture r) (CellData.height r) seaLevel))
         out.
Proof.
  intros Hok.
  destruct (generateWorld_returns this resolution seaLevel sunlight axialTilt
              rotationSpeed rotationPeriod orbitalPeriod generationMethod pos Hok)
    as (heights & pos' & _ & Hrun).
  eexists. split; [exact Hrun |]. cbv zeta.
  apply List.Forall_forall. intros r Hr.
  apply in_map_iff in Hr as (info & <- & Hinfo).
  apply in_map_iff in Hinfo as (x & <- & _).
  set (rs := simulateRivers _ seaLevel pos').
  assert (Habove : x ∈ rs ->
            CellInfo.height (cellInfo this generationMethod heights x) > seaLevel)
    by apply river_record_above_sea.
  rewrite cellData_isRiver, cellData_biome_RIVER, cellInfo_h3Index.
  split; [| split].
  - split; [intros Hin; split; [exact Hin | apply Habove, Hin] | intros [Hin _]; exact Hin].
  - intros Hin. apply Habove, Hin.
  - simpl. rewrite cellInfo_h3Index.
    destruct (bool_decide (x ∈ rs)); [discriminate | reflexivity].
Qed.

(** The ranges of the fields of the output, for a noise field in [-1,1]
    and a rotation speed that is not negative: height in [0,1]; moisture
    in [0.1, 1] for a cell that is not a river and in [0.4, 1.3] for a
    river; latitude and longitude are those the grid gives for the id. *)
Theorem generateWorld_field_ranges (this : t) (resolution : nat)
    (seaLevel sunlight axialTilt rotationSpeed rotationPeriod orbitalPeriod : R)
    (generationMethod : GenerationMethod) (pos : nat) :
  (forall x y z, -1 <= noise3D this x y z <= 1) ->
  0 <= rotationSpeed ->
  expandCells resolution <> [] \/ generationMethod = noise ->
  exists out,
    generateWorld this resolution seaLevel sunlight axialTilt rotationSpeed
      rotationPeriod orbitalPeriod generationMethod pos = Some out
    /\ Forall (fun r =>
                 0 <= CellData.height r <= 1
                 /\ (if CellData.isRiver r
                     then 0.4 <= CellData.moisture r <= 1.3
                     else 0.1 <= CellData.moisture r <= 1)
                 /\ (CellData.lat r, CellData.lon r)
                    = cellToLatLng (CellData.h3Index r))
         out.
Proof.
  intros Hn Hspeed Hok.
  destruct (generateWorld_returns this resolution seaLevel sunlight axialTilt
              rotationSpeed rotationPeriod orbitalPeriod generationMethod pos Hok)
    as (heights & pos' & _ & Hrun).
  eexists. split; [exact Hrun |]. cbv zeta.
  apply List.Forall_forall. intros r Hr.
  apply in_map_iff in Hr as (info & <- & Hinfo).
  apply in_map_iff in Hinfo as (x & <- & _).
  split; [apply cellInfo_height_range, Hn | split].
  - simpl.
    match goal with
    | |- context [ClimateSystem.calculateMoisture ?a ?b ?c ?d] =>
        pose proof (calculateMoisture_lower a b c d) as Hm
    end.
    destruct (bool_decide _); lra.
  - simpl. rewrite cellInfo_h3Index. apply cellInfo_coords.
Qed.
End OutputFacts.

Section OutputExamples.
Import WorldGenerator.
#[local] Existing Instance TwoCells.grid.
#[local] Existing Instance TwoCells.process.

Lemma generateWorld_river_flag_witness :
  exists out,
    generateWorld TwoCells.generator 0 0.5 1 23.5 1 1 365 noise 0 = Some out
    /\ Forall (fun r =>
                 (CellData.isRiver r = true <-> CellData.biome r = RIVER)
                 /\ (CellData.isRiver r = true -> CellData.height r > 0.5)
                 /\ (CellData.isRiver r = false ->
                     CellData.biome r
                     = ClimateSystem.determineBiome (CellData.temperature r)
                         (CellData.moisture r) (CellData.height r) 0.5))
         out.
Proof.
  apply (generateWorld_river_flag TwoCells.generator 0 0.5 1 23.5 1 1 365
           noise 0%nat).
  right. reflexivity.
Defined.

Lemma generateWorld_field_ranges_witness :
  exists out,
    generateWorld TwoCells.plain 1 0.5 1 23.5 1 1 365 tectonic 0 = Some out
    /\ Forall (fun r =>
                 0 <= CellData.height r <= 1
                 /\ (if CellData.isRiver r
                     then 0.4 <= CellData.moisture r <= 1.3
                     else 0.1 <= CellData.moisture r <= 1)
                 /\ (CellData.lat r, CellData.lon r)
                    = cellToLatLng (CellData.h3Index r))
         out.
Proof.
  apply (generateWorld_field_ranges TwoCells.plain 1 0.5 1 23.5 1 1 365
           tectonic 0%nat).
  - intros x y z. simpl. lra.
  - lra.
  - left. simpl. discriminate.
Defined.

Lemma generateWorld_noise_fixed_fields_witness :
  exists out1 out2,
    @generateWorld TwoCells.grid TwoCells.process TwoCells.plain 0 0.5 1 23.5 1 1 365
      noise 0 = Some out1
    /\ @generateWorld TwoCells.grid TwoCells.process TwoCells.plain 0 0.5 1 23.5 1 1
         365 noise 50 = Some out2
    /\ out1 = out2.
Proof.
  destruct (@generateWorld_noise_fixed_fields TwoCells.grid TwoCells.process
              TwoCells.process TwoCells.plain 0 0.5 1 23.5 1 1 365 0%nat 50%nat)
    as (out1 & out2 & H1 & H2 & _ & _ & _ & _ & _ & Hsame).
  exists out1, out2. split; [exact H1 | split; [exact H2 |]].
  apply Hsame.
  assert (Hflat : forall id lat lon,
            heightAt TwoCells.plain noise None id lat lon = 0.5).
  { intros id lat lon. unfold heightAt, getNoise. simpl. lra. }
  unfold riverCandidates, cellInfo. simpl. rewrite !Hflat.
  destruct (Rgt_dec 0.5 (0.5 + 0.3)) as [Hgt | _]; [exfalso; lra | reflexivity].
Defined.
End OutputExamples.

(* ===================================================================== *)
(** * The earlier generateWorld and the later one *)
(* ===================================================================== *)

Section EarlierFacts.
Import WorldGenerator.
Context {grid : H3} {rng : MathRandom}.

Lemma cellData_no_rivers (x : string) (info : CellInfo.t) (rs : gset string)
    (seaLevel sunlight axialTilt rotationSpeed rotationPeriod orbitalPeriod : R) :
  CellInfo.h3Index info ∉ rs ->
  Earlier.forget (cellData rs seaLevel sunlight axialTilt rotationSpeed
                    rotationPeriod orbitalPeriod info)
  = Earlier.forget (cellData ∅ seaLevel sunlight axialTilt rotationSpeed
                      rotationPeriod orbitalPeriod info).
Proof.
  intros Hout. unfold cellData. cbv zeta.
  rewrite (bool_decide_eq_false_2 _ Hout).
  rewrite (bool_decide_eq_false_2 _ (not_elem_of_empty (CellInfo.h3Index info))).
  reflexivity.
Qed.

(** The earlier pass, cell by cell, is the later one run with no river. *)
Lemma earlier_by_cell (this : t) (resolution : nat)
    (seaLevel sunlight axialTilt rotationSpeed rotationPeriod orbitalPeriod : R) :
  Earlier.generateWorld this resolution seaLevel sunlight axialTilt rotationSpeed
    rotationPeriod orbitalPeriod
  = map (fun x =>
           Earlier.forget
             (cellData ∅ seaLevel sunlight axialTilt rotationSpeed
                rotationPeriod orbitalPeriod (cellInfo this noise None x)))
      (expandCells resolution).
Proof.
  unfold Earlier.generateWorld, expandCells. cbv zeta.
  apply map_ext. intros x. unfold cellInfo, heightAt, cellData, Earlier.forget.
  destruct (cellToLatLng x) as [lat lon]. cbv zeta.
  rewrite (bool_decide_eq_false_2 _ (not_elem_of_empty _)).
  destruct (heightMapContext this); reflexivity.
Qed.

Lemma Forall2_map_same {A B C : Type} (P : B -> C -> Prop) (f : A -> B)
    (g : A -> C) (l : list A) :
  (forall x, In x l -> P (f x) (g x)) -> Forall2 P (map f l) (map g l).
Proof.
  induction l as [| x l IH]; intros Hall; simpl; constructor.
  - apply Hall. left. reflexivity.
  - apply IH. intros y Hy. apply Hall. right. exact Hy.
Qed.

(** The earlier [generateWorld] keeps what the later one breaks: for a
    noise field in [-1,1] and a rotation speed that is not negative every
    record has height in [0,1] and moisture in [0.1, 1], its biome is the
    table's and never RIVER, and there is one record per expanded cell. *)
Theorem earlier_generateWorld_ranges (this : t) (resolution : nat)
    (seaLevel sunlight axialTilt rotationSpeed rotationPeriod orbitalPeriod : R) :
  (forall x y z, -1 <= noise3D this x y z <= 1) ->
  0 <= rotationSpeed ->
  map Earlier.h3Index
    (Earlier.generateWorld this resolution seaLevel sunlight axialTilt
       rotationSpeed rotationPeriod orbitalPeriod)
  = expandCells resolution
  /\ Forall (fun e =>
               0 <= Earlier.height e <= 1
               /\ 0.1 <= Earlier.moisture e <= 1
               /\ Earlier.biome e <> RIVER
               /\ Earlier.biome e
                  = ClimateSystem.determineBiome (Earlier.temperature e)
                      (Earlier.moisture e) (Earlier.height e) seaLevel)
       (Earlier.generateWorld this resolution seaLevel sunlight axialTilt
          rotationSpeed rotationPeriod orbitalPeriod).
Proof.
  intros Hn Hspeed. rewrite earlier_by_cell. split.
  - rewrite map_map. rewrite (map_ext _ (fun x => x)); [apply map_id |].
    intros x. simpl. apply cellInfo_h3Index.
  - apply List.Forall_forall. intros e He.
    apply in_map_iff in He as (x & <- & _).
    unfold Earlier.forget, cellData. cbv zeta.
    rewrite (bool_decide_eq_false_2 _ (not_elem_of_empty _)).
    cbn [Earlier.height Earlier.moisture Earlier.biome Earlier.temperature
         CellData.height CellData.moisture CellData.biome CellData.temperature
         CellData.h3Index CellData.lat CellData.lon andb].
    split; [apply cellInfo_height_range, Hn |].
    split; [apply calculateMoisture_lower |].
    split; [apply determineBiome_not_RIVER | reflexivity].
Qed.

(** Under the noise method the later [generateWorld] changes the earlier
    records only at river cells: the cells, their order, their position,
    height and temperature are the same; a record that is not a river is
    the earlier record; a river record has the earlier moisture plus 0.3
    and the biome RIVER. *)
Theorem later_changes_only_rivers (this : t) (resolution : nat)
    (seaLevel sunlight axialTilt rotationSpeed rotationPeriod orbitalPeriod : R)
    (pos : nat) :
  exists out,
    generateWorld this resolution seaLevel sunlight axialTilt rotationSpeed
      rotationPeriod orbitalPeriod noise pos = Some out
    /\ Forall2 (fun e r =>
                  Earlier.h3Index e = CellData.h3Index r
                  /\ Earlier.lat e = CellData.lat r
                  /\ Earlier.lon e = CellData.lon r
                  /\ Earlier.height e = CellData.height r
                  /\ Earlier.temperature e = CellData.temperature r
                  /\ (if CellData.isRiver r
                      then CellData.moisture r = Earlier.moisture e + 0.3
                           /\ CellData.biome r = RIVER
                      else Earlier.forget r = e))
         (Earlier.generateWorld this resolution seaLevel sunlight axialTilt
            rotationSpeed rotationPeriod orbitalPeriod)
         out.
Proof.
  unfold generateWorld. rewrite generateWorld_noise, earlier_by_cell. cbv zeta.
  eexists. split; [reflexivity |]. cbn [fst]. rewrite map_map.
  apply Forall2_map_same. intros x _.
  set (info := cellInfo this noise None x).
  set (rs := simulateRivers _ seaLevel pos).
  do 5 (split; [reflexivity |]).
  destruct (CellData.isRiver _) eqn:Hflag.
  - apply cellData_isRiver in Hflag. split.
    + unfold cellData, Earlier.forget. cbv zeta.
      rewrite (bool_decide_eq_true_2 _ Hflag).
      rewrite (bool_decide_eq_false_2 _ (not_elem_of_empty _)). reflexivity.
    + apply cellData_biome_RIVER. split; [exact Hflag |].
      unfold info in Hflag |- *. rewrite cellInfo_h3Index in Hflag.
      apply river_record_above_sea with (allCells := expandCells resolution) (pos := pos).
      exact Hflag.
  - apply cellData_no_rivers; [exact x |].
    intros Hin.
    apply (proj2 (cellData_isRiver rs seaLevel sunlight axialTilt rotationSpeed
                    rotationPeriod orbitalPeriod info)) in Hin.
    rewrite Hin in Hflag. discriminate.
Qed.
End EarlierFacts.

Lemma earlier_generateWorld_ranges_witness :
  map Earlier.h3Index
    (@Earlier.generateWorld TwoCells.grid TwoCells.plain 0 0.5 1 23.5 1 1 365)
  = @WorldGenerator.expandCells TwoCells.grid 0
  /\ Forall (fun e => 0 <= Earlier.height e <= 1 /\ 0.1 <= Earlier.moisture e <= 1)
       (@Earlier.generateWorld TwoCells.grid TwoCells.plain 0 0.5 1 23.5 1 1 365).
Proof.
  destruct (@earlier_generateWorld_ranges TwoCells.grid TwoCells.plain 0 0.5 1
              23.5 1 1 365) as [Hids Hall].
  - intros x y z. simpl. lra.
  - lra.
  - split; [exact Hids |].
    eapply List.Forall_impl; [| exact Hall].
    intros e (Hh & Hm & _). split; assumption.
Defined.

(* ===================================================================== *)
(** * Planet: results *)
(* ===================================================================== *)

Section PlanetFacts.
Import WorldGenerator.
Context {grid : H3} {rng : MathRandom}.

(** An instance sits on the sphere of its radius around the origin; the
    radius is 10 for every cell at or below sea level and grows with the
    height above it, up to 10.5 for heights and sea levels in [0,1]. *)
Theorem instance_on_sphere (cell : CellData.t) (seaLevel : R) :
  (let '(x, y, z) := Planet.position cell seaLevel in
   x * x + y * y + z * z = Planet.radius cell seaLevel * Planet.radius cell seaLevel)
  /\ 10 <= Planet.radius cell seaLevel
  /\ (CellData.height cell <= seaLevel -> Planet.radius cell seaLevel = 10)
  /\ (0 <= seaLevel -> CellData.height cell <= 1 ->
      Planet.radius cell seaLevel <= 10.5).
Proof.
  split; [| unfold Planet.radius; cbv zeta;
            destruct (Rle_dec (CellData.height cell) seaLevel);
            repeat split; intros; lra].
  unfold Planet.position. cbv zeta.
  set (r := Planet.radius cell seaLevel).
  set (phi := (90 - CellData.lat cell) * (PI / 180)).
  set (theta := (CellData.lon cell + 180) * (PI / 180)).
  pose proof (sin2_cos2 phi) as Hphi. pose proof (sin2_cos2 theta) as Htheta.
  unfold Rsqr in Hphi, Htheta.
  replace (- (r * sin phi * cos theta) * - (r * sin phi * cos theta)
           + r * cos phi * (r * cos phi)
           + r * sin phi * sin theta * (r * sin phi * sin theta))
    with (r * r * (sin phi * sin phi * (sin theta * sin theta + cos theta * cos theta)
                   + cos phi * cos phi)) by ring.
  rewrite Htheta, Rmult_1_r, Hphi. ring.
Qed.

Lemma instance_on_sphere_witness :
  Planet.radius (CellData.mk "a" 0 0 0.25 10 0.5 OCEAN false) 0.5 = 10.
Proof.
  destruct (instance_on_sphere (CellData.mk "a" 0 0 0.25 10 0.5 OCEAN false) 0.5)
    as (_ & _ & Hsea & _).
  apply Hsea. simpl. lra.
Defined.

(** The size of an instance shrinks by the factor 2.2 with every
    resolution step and stays positive. *)
Theorem scale_shrinks (resolution : nat) :
  0 < Planet.scale resolution
  /\ Planet.scale (S resolution) = Planet.scale resolution / 2.2
  /\ Planet.scale (S resolution) < Planet.scale resolution.
Proof.
  unfold Planet.scale. cbv zeta.
  assert (Hp : 0 < 2.2 ^ resolution) by (apply pow_lt; lra).
  assert (Hs : 0 < 2.8 / 2.2 ^ resolution) by (apply Rdiv_lt_0_compat; lra).
  assert (Hstep : 2.8 / 2.2 ^ S resolution = 2.8 / 2.2 ^ resolution / 2.2).
  { simpl. field. lra. }
  split; [exact Hs | split; [exact Hstep |]].
  rewrite Hstep. lra.
Qed.

(** How the output is drawn: every river cell gets the fallback colour,
    since [getBiomeColor] has no case for RIVER, and no other cell does. *)
Theorem rivers_drawn_in_fallback_colour (this : t) (resolution : nat)
    (seaLevel sunlight axialTilt rotationSpeed rotationPeriod orbitalPeriod : R)
    (generationMethod : GenerationMethod) (pos : nat) :
  expandCells resolution <> [] \/ generationMethod = noise ->
  exists out,
    generateWorld this resolution seaLevel sunlight axialTilt rotationSpeed
      rotationPeriod orbitalPeriod generationMethod pos = Some out
    /\ Forall (fun r =>
                 CellData.isRiver r = true
                 <-> Planet.color r = BiomeColor.fallback) out.
Proof.
  intros Hok.
  destruct (generateWorld_returns this resolution seaLevel sunlight axialTilt
              rotationSpeed rotationPeriod orbitalPeriod generationMethod pos Hok)
    as (heights & pos' & _ & Hrun).
  eexists. split; [exact Hrun |]. cbv zeta.
  apply List.Forall_forall. intros r Hr.
  apply in_map_iff in Hr as (info & <- & Hinfo).
  apply in_map_iff in Hinfo as (x & <- & _).
  set (rs := simulateRivers _ seaLevel pos').
  assert (Habove : x ∈ rs ->
            CellInfo.height (cellInfo this generationMethod heights x) > seaLevel)
    by apply river_record_above_sea.
  rewrite cellData_isRiver, cellInfo_h3Index. unfold Planet.color.
  split.
  - intros Hin.
    assert (Hb : CellData.biome
                   (cellData rs seaLevel sunlight axialTilt rotationSpeed
                      rotationPeriod orbitalPeriod
                      (cellInfo this generationMethod heights x)) = RIVER).
    { apply cellData_biome_RIVER. rewrite cellInfo_h3Index. auto. }
    rewrite Hb. reflexivity.
  - intros Hcol. destruct (decide (x ∈ rs)) as [Hin | Hout]; [exact Hin |].
    exfalso. revert Hcol. simpl. rewrite cellInfo_h3Index.
    rewrite (bool_decide_eq_false_2 _ Hout). cbn [andb].
    unfold ClimateSystem.determineBiome.
    destruct_comparisons; vm_compute; discriminate.
Qed.

(** Hit-testing by position: instance [i] of the mesh is the record of
    the [i]-th expanded cell, and an instance id past the end hands
    [undefined] to the hover handler. *)
Theorem hovered_is_ith_cell (this : t) (resolution : nat)
    (seaLevel sunlight axialTilt rotationSpeed rotationPeriod orbitalPeriod : R)
    (generationMethod : GenerationMethod) (pos i : nat) :
  expandCells resolution <> [] \/ generationMethod = noise ->
  exists out,
    generateWorld this resolution seaLevel sunlight axialTilt rotationSpeed
      rotationPeriod orbitalPeriod generationMethod pos = Some out
    /\ Planet.hovered out None = None
    /\ match Planet.hovered out (Some i) with
       | Some (Some r) => nth_error (expandCells resolution) i = Some (CellData.h3Index r)
       | Some None => (length (expandCells resolution) <= i)%nat
       | None => False
       end.
Proof.
  intros Hok.
  destruct (generateWorld_returns this resolution seaLevel sunlight axialTilt
              rotationSpeed rotationPeriod orbitalPeriod generationMethod pos Hok)
    as (heights & pos' & _ & Hrun).
  eexists. split; [exact Hrun |]. cbv zeta. split; [reflexivity |].
  unfold Planet.hovered. rewrite map_map, nth_error_map.
  destruct (nth_error (expandCells resolution) i) as [x |] eqn:Hx; simpl.
  - rewrite cellInfo_h3Index. reflexivity.
  - apply nth_error_None. exact Hx.
Qed.
End PlanetFacts.

Section PlanetExamples.
Import WorldGenerator.
#[local] Existing Instance TwoCells.grid.
#[local] Existing Instance TwoCells.process.

Lemma rivers_drawn_in_fallback_colour_witness :
  exists out,
    generateWorld TwoCells.generator 0 0.5 1 23.5 1 1 365 noise 0 = Some out
    /\ Forall (fun r =>
                 CellData.isRiver r = true
                 <-> Planet.color r = BiomeColor.fallback) out.
Proof.
  apply (rivers_drawn_in_fallback_colour TwoCells.generator 0 0.5 1 23.5 1 1 365
           noise 0%nat).
  right. reflexivity.
Defined.

Lemma hovered_is_ith_cell_witness :
  exists out,
    generateWorld TwoCells.generator 0 0.5 1 23.5 1 1 365 noise 0 = Some out
    /\ Planet.hovered out None = None
    /\ match Planet.hovered out (Some 1%nat) with
       | Some (Some r) => nth_error (expandCells 0) 1 = Some (CellData.h3Index r)
       | Some None => (length (expandCells 0) <= 1)%nat
       | None => False
       end.
Proof.
  apply (hovered_is_ith_cell TwoCells.generator 0 0.5 1 23.5 1 1 365 noise 0%nat 1%nat).
  right. reflexivity.
Defined.
End PlanetExamples.

(* ===================================================================== *)
(** * Seeds, draws and the application's calls *)
(* ===================================================================== *)

Section SeedAndDraws.
Import WorldGenerator.
Context {grid : H3} {simplex : SimplexNoise} {rng : MathRandom}.

Lemma toInt32_range (z : Z) : (- 2 ^ 31 <= JS.toInt32 z < 2 ^ 31)%Z.
Proof.
  unfold JS.toInt32.
  pose proof (Z.mod_pos_bound (z + 2 ^ 31) (2 ^ 32) eq_refl). lia.
Qed.

(** The number the seed closure returns lies in [0,1), whatever the seed;
    and after the first character the running hash is a signed 32-bit
    integer. *)
Theorem seed_closure_range (seed : string) (h : Z) :
  0 <= seedFraction seed < 1
  /\ (seed <> EmptyString -> (- 2 ^ 31 <= seedHash h seed < 2 ^ 31)%Z).
Proof.
  split; [apply seedFraction_range |].
  revert h. induction seed as [| c rest IH]; intros h Hne; [contradiction |].
  cbn [seedHash]. destruct rest as [| c' rest'].
  - cbn [seedHash]. unfold JS.imul. apply toInt32_range.
  - apply IH. discriminate.
Qed.

Lemma seed_closure_range_witness :
  (- 2 ^ 31 <= seedHash 0x811c9dc5 "world-sim" < 2 ^ 31)%Z.
Proof.
  destruct (seed_closure_range "world-sim" 0x811c9dc5) as [_ Hint].
  apply Hint. discriminate.
Defined.

Lemma simulateRivers_position (cells : list CellInfo.t) (seaLevel : R) (pos : nat) :
  snd (simulateRiversFrom cells seaLevel pos) = pos
  \/ snd (simulateRiversFrom cells seaLevel pos) = (pos + 50)%nat.
Proof.
  destruct (riverCandidates cells seaLevel) as [| c0 cs] eqn:Hc.
  - left. rewrite (simulateRivers_no_candidates cells seaLevel pos Hc). reflexivity.
  - right. unfold simulateRiversFrom. rewrite Hc.
    apply riverLoop_position. discriminate.
Qed.

(** A call reads at most 75 draws of [Math.random]: none or 50 for the
    rivers, and under the tectonic method between 17 and 25 before them. *)
Theorem generateWorld_draws (this : t) (resolution : nat)
    (seaLevel sunlight axialTilt rotationSpeed rotationPeriod orbitalPeriod : R)
    (generationMethod : GenerationMethod) (pos : nat) :
  expandCells resolution <> [] \/ generationMethod = noise ->
  exists out pos',
    generateWorldFrom this resolution seaLevel sunlight axialTilt rotationSpeed
      rotationPeriod orbitalPeriod generationMethod pos = Some (out, pos')
    /\ (pos <= pos' <= pos + 75)%nat
    /\ match generationMethod with
       | noise => pos' = pos \/ pos' = (pos + 50)%nat
       | tectonic => (pos + 17 <= pos')%nat
       end.
Proof.
  intros Hok. unfold generateWorldFrom. cbv zeta.
  destruct generationMethod; cbn [tectonicState].
  - set (infos := map _ (expandCells resolution)).
    pose proof (simulateRivers_position infos seaLevel pos) as Hp.
    destruct (simulateRiversFrom infos seaLevel pos) as [rs p]. simpl in Hp.
    eexists. exists p. split; [reflexivity |]. split; [lia | exact Hp].
  - destruct Hok as [Hne | Hm]; [| discriminate].
    destruct (plates_spec (expandCells resolution) pos Hne)
      as (heights & k & Hrun & Hk & _).
    rewrite Hrun.
    set (infos := map _ (expandCells resolution)).
    pose proof (simulateRivers_position infos seaLevel (pos + 1 + 2 * k)) as Hp.
    destruct (simulateRiversFrom infos seaLevel (pos + 1 + 2 * k)) as [rs p].
    simpl in Hp. eexists. exists p. split; [reflexivity |]. lia.
Qed.

(** The application's [generate] never throws, whatever the grid: it
    leaves the method at its default, and returns one record per expanded
    cell. *)
Theorem app_generate_returns (generator : t) (params : App.Params) (pos : nat) :
  exists out pos',
    App.generate generator params pos = Some (out, pos')
    /\ map CellData.h3Index out = expandCells (App.resolution params)
    /\ (pos' = pos \/ pos' = (pos + 50)%nat).
Proof.
  unfold App.generate. rewrite generateWorld_noise. cbv zeta.
  eexists. eexists. split; [reflexivity |]. split.
  - rewrite !map_map. rewrite (map_ext _ (fun x => x)); [apply map_id |].
    intros x. simpl. apply cellInfo_h3Index.
  - apply simulateRivers_position.
Qed.

(** Once a height map is loaded, "Randomize World" changes no elevation:
    the worlds generated before and after the new seed have the same
    cells, heights and temperatures. *)
Theorem randomize_keeps_loaded_heights (toString36 : R -> string)
    (generator : t) (img : Image) (params : App.Params) (pos1 pos2 : nat) :
  let '(loaded, before) := App.handleFileChange generator img params pos1 in
  let '(_, after) := App.handleRandomize toString36 loaded params pos2 in
  exists out1 p1 out2 p2,
    before = Some (out1, p1) /\ after = Some (out2, p2)
    /\ map CellData.h3Index out1 = map CellData.h3Index out2
    /\ map CellData.height out1 = map CellData.height out2
    /\ map CellData.temperature out1 = map CellData.temperature out2.
Proof.
  unfold App.handleFileChange, App.handleRandomize, App.generate. cbv zeta.
  rewrite !generateWorld_noise. cbv zeta.
  eexists. eexists. eexists. eexists.
  split; [reflexivity |]. split; [reflexivity |].
  rewrite !map_map. repeat split; apply map_ext; intros x;
    unfold cellInfo; destruct (cellToLatLng x); reflexivity.
Qed.
End SeedAndDraws.

Lemma generateWorld_draws_witness :
  exists out pos',
    @WorldGenerator.generateWorldFrom TwoCells.grid TwoCells.process TwoCells.plain
      0 0.5 1 23.5 1 1 365 tectonic 0 = Some (out, pos')
    /\ (0 <= pos' <= 0 + 75)%nat
    /\ (0 + 17 <= pos')%nat.
Proof.
  apply (@generateWorld_draws TwoCells.grid TwoCells.process TwoCells.plain
           0 0.5 1 23.5 1 1 365 tectonic 0%nat).
  left. simpl. discriminate.
Defined.
